(** * single_cell-morphics: the Protozoa simulation core

    A shallow embedding of [simulation_core.py] (classes [PetriDish] and
    [Protozoa]) and of the tick of [protozoa.py] ([Simulation.update]),
    followed by the loop of [Simulation.run] and by what [_render_field]
    and [_render_agent] ask the screen to draw.

    Python floats are read as real numbers ([R]); [math.exp], [math.cos],
    [math.sin] and [math.pi] are the functions and the constant of the
    Standard Library's reals.  The module-level generator behind
    [random.uniform] and [random.randint] is an explicit state threaded
    through every function that draws from it. *)

From Stdlib Require Import Reals Lra Lia List ZArith Permutation.
From Stdlib Require Ascii String.
Import ListNotations.
Open Scope R_scope.

(** ** Python built-ins on numbers *)

(** [max(a, b)] and [min(a, b)] on two numbers. *)
Definition py_max (a b : R) : R := Rmax a b.
Definition py_min (a b : R) : R := Rmin a b.

(** [a % m] on floats: the remainder has the sign of the divisor, that
    is, [a - m * floor (a / m)]. *)
Definition py_mod (a m : R) : R := a - IZR (Int_part (a / m)) * m.

(** ** The [random] module

    The generator is a tape of the values [random.random()] returns
    (floats in the half-open unit interval), a tape of raw integers for
    [random.randint], and the number of draws made so far. *)

Record Rng : Type := mkRng {
  floats : nat -> R;
  ints : nat -> nat;
  cursor : nat
}.

(** The contract of [random.random()]: every value lies in [0, 1). *)
Definition wf_rng (g : Rng) : Prop := forall i, 0 <= floats g i < 1.

Definition advance (g : Rng) : Rng :=
  {| floats := floats g; ints := ints g; cursor := S (cursor g) |}.

(** Computations that draw random numbers. *)
Definition Rand (A : Type) : Type := Rng -> A * Rng.

Definition ret {A : Type} (a : A) : Rand A := fun g => (a, g).

Definition bind {A B : Type} (c : Rand A) (k : A -> Rand B) : Rand B :=
  fun g => let (a, g') := c g in k a g'.

Declare Scope rand_scope.
Delimit Scope rand_scope with rand.
Notation "x <- c ;; k" := (bind c (fun x => k))
  (at level 61, c at next level, right associativity) : rand_scope.
Open Scope rand_scope.

Module random.

(** [random.random()] *)
Definition random : Rand R :=
  fun g => (floats g (cursor g), advance g).

(** [random.uniform(a, b)] is [a + (b - a) * random()]. *)
Definition uniform (a b : R) : Rand R :=
  u <- random ;; ret (a + (b - a) * u).

(** [_randbelow(n)]: an integer in [0, n). *)
Definition randbelow (n : nat) : Rand nat :=
  fun g => (Nat.modulo (ints g (cursor g)) n, advance g).

(** [random.randint(a, b)] is [a + _randbelow(b - a + 1)]. *)
Definition randint (a b : Z) : Rand Z :=
  k <- randbelow (Z.to_nat (b - a + 1)) ;; ret (a + Z.of_nat k)%Z.

End random.

(** ** Hyperparameters: the [PARAMS] dictionary *)

Record Params : Type := mkParams {
  target : R;
  sensor_dist : R;
  sensor_angle : R;
  learning_rate : R;
  max_speed : R
}.

Definition PARAMS : Params :=
  {| target := 0.8;
     sensor_dist := 2.0;
     sensor_angle := 0.5;
     learning_rate := 0.15;
     max_speed := 1.5 |}.

(** ** A nutrient source: the dictionary with keys x, y, radius, intensity *)

Module Source.

Record t : Type := mk {
  x : R;
  y : R;
  radius : R;
  intensity : R
}.

End Source.

(** ** class PetriDish *)

Module PetriDish.

Record t : Type := mk {
  width : R;
  height : R;
  sources : list Source.t
}.

(** [_create_random_source]: reads only the bounds of the dish. *)
Definition _create_random_source (w h : R) : Rand Source.t :=
  sx <- random.uniform 0 w ;;
  sy <- random.uniform 0 h ;;
  r <- random.uniform 5.0 15.0 ;;
  i <- random.uniform 0.5 1.0 ;;
  ret {| Source.x := sx; Source.y := sy;
         Source.radius := r; Source.intensity := i |}.

(** The loop of [_init_sources]: [n] appends to the list [acc]. *)
Fixpoint append_sources (w h : R) (n : nat) (acc : list Source.t)
  : Rand (list Source.t) :=
  match n with
  | O => ret acc
  | S n' =>
      s <- _create_random_source w h ;;
      append_sources w h n' (acc ++ [s])
  end.

Definition _init_sources (d : t) : Rand t :=
  num_sources <- random.randint 5 10 ;;
  srcs <- append_sources (width d) (height d) (Z.to_nat num_sources)
            (sources d) ;;
  ret {| width := width d; height := height d; sources := srcs |}.

(** [PetriDish(width, height)] *)
Definition __init__ (w h : R) : Rand t :=
  _init_sources {| width := w; height := h; sources := [] |}.

(** One turn of the loop of [get_concentration]; the division raises
    [ZeroDivisionError] when its divisor is zero. *)
Definition gaussian (px py : R) (source : Source.t) : option R :=
  let d_x := px - Source.x source in
  let d_y := py - Source.y source in
  let dist_sq := d_x * d_x + d_y * d_y in
  let sigma_sq := Source.radius source ^ 2 in
  if Req_dec_T (2 * sigma_sq) 0 then None
  else Some (Source.intensity source * exp (- dist_sq / (2 * sigma_sq))).

Fixpoint accumulate (px py : R) (srcs : list Source.t) (concentration : R)
  : option R :=
  match srcs with
  | [] => Some concentration
  | source :: rest =>
      match gaussian px py source with
      | None => None
      | Some val => accumulate px py rest (concentration + val)
      end
  end.

Definition get_concentration (d : t) (px py : R) : option R :=
  match accumulate px py (sources d) 0.0 with
  | None => None
  | Some concentration => Some (py_min 1.0 (py_max 0.0 concentration))
  end.

Definition decay_factor : R := 0.995.
Definition brownian_step : R := 0.5.
Definition respawn_threshold : R := 0.05.

(** The body of the loop of [update] for the source in one slot; the
    result is what the slot holds afterwards. *)
Definition update_source (w h : R) (source : Source.t) : Rand Source.t :=
  let i1 := Source.intensity source * decay_factor in
  dx <- random.uniform (- brownian_step) brownian_step ;;
  let x1 := Source.x source + dx in
  dy <- random.uniform (- brownian_step) brownian_step ;;
  let y1 := Source.y source + dy in
  let x2 := py_max 0 (py_min w x1) in
  let y2 := py_max 0 (py_min h y1) in
  if Rlt_dec i1 respawn_threshold
  then _create_random_source w h
  else ret {| Source.x := x2; Source.y := y2;
              Source.radius := Source.radius source;
              Source.intensity := i1 |}.

Fixpoint update_sources (w h : R) (srcs : list Source.t)
  : Rand (list Source.t) :=
  match srcs with
  | [] => ret []
  | source :: rest =>
      s' <- update_source w h source ;;
      rest' <- update_sources w h rest ;;
      ret (s' :: rest')
  end.

Definition update (d : t) : Rand t :=
  srcs <- update_sources (width d) (height d) (sources d) ;;
  ret {| width := width d; height := height d; sources := srcs |}.

(** [update] called [n] times in a row. *)
Fixpoint updates (n : nat) (d : t) : Rand t :=
  match n with
  | O => ret d
  | S n' => d' <- update d ;; updates n' d'
  end.

End PetriDish.

(** ** class Protozoa *)

Module Protozoa.

Record t : Type := mk {
  x : R;
  y : R;
  angle : R;
  speed : R;
  val_l : R;
  val_r : R;
  energy : R
}.

(** [Protozoa(x, y)] *)
Definition __init__ (px py : R) : Rand t :=
  a <- random.uniform 0 (2 * PI) ;;
  ret {| x := px; y := py; angle := a; speed := 0.0;
         val_l := 0.0; val_r := 0.0; energy := 1.0 |}.

(** [sense]: the two sensor readings are the only fields written; a
    failing [get_concentration] propagates. *)
Definition sense (p : t) (dish : PetriDish.t) : option t :=
  let theta_l := angle p + sensor_angle PARAMS in
  let x_l := x p + sensor_dist PARAMS * cos theta_l in
  let y_l := y p + sensor_dist PARAMS * sin theta_l in
  match PetriDish.get_concentration dish x_l y_l with
  | None => None
  | Some new_l =>
      let theta_r := angle p - sensor_angle PARAMS in
      let x_r := x p + sensor_dist PARAMS * cos theta_r in
      let y_r := y p + sensor_dist PARAMS * sin theta_r in
      match PetriDish.get_concentration dish x_r y_r with
      | None => None
      | Some new_r =>
          Some {| x := x p; y := y p; angle := angle p; speed := speed p;
                  val_l := new_l; val_r := new_r; energy := energy p |}
      end
  end.

(** The locals of [update_state] that depend on the readings only. *)
Definition mean_sense (p : t) : R := (val_l p + val_r p) / 2.0.
Definition error (p : t) : R := mean_sense p - target PARAMS.
Definition gradient (p : t) : R := val_l p - val_r p.

(** The noise-free part of the heading update, [-lr * E * G]. *)
Definition steering (p : t) : R :=
  - learning_rate PARAMS * error p * gradient p.

(** The local [d_theta] of [update_state], as a function of the value
    [random.uniform(-0.5, 0.5)] returned. *)
Definition d_theta_of (p : t) (u : R) : R :=
  let noise := u * Rabs (error p) in
  steering p + noise.

Definition d_theta (p : t) : Rand R :=
  u <- random.uniform (-0.5) 0.5 ;; ret (d_theta_of p u).

Definition update_state (p : t) (dish : PetriDish.t) : Rand t :=
  dth <- d_theta p ;;
  let angle1 := py_mod (angle p + dth) (2 * PI) in
  let speed1 := max_speed PARAMS * Rabs (error p) in
  let metabolic_cost := 0.0005 + 0.0025 * (speed1 / max_speed PARAMS) in
  let intake := 0.03 * mean_sense p in
  let energy1 := energy p - metabolic_cost + intake in
  let energy2 := py_max 0.0 (py_min 1.0 energy1) in
  let speed2 := if Rle_dec energy2 0.01 then speed1 * 0.5 else speed1 in
  let x1 := x p + speed2 * cos angle1 in
  let y1 := y p + speed2 * sin angle1 in
  ret {| x := py_max 0 (py_min (PetriDish.width dish) x1);
         y := py_max 0 (py_min (PetriDish.height dish) y1);
         angle := angle1;
         speed := speed2;
         val_l := val_l p;
         val_r := val_r p;
         energy := energy2 |}.

(** The assignment [p.val_l = l; p.val_r = r] made by [sense], and by
    the tests directly. *)
Definition set_readings (p : t) (l r : R) : t :=
  {| x := x p; y := y p; angle := angle p; speed := speed p;
     val_l := l; val_r := r; energy := energy p |}.

(** A run of ticks on given readings: before each [update_state] the
    two readings are overwritten with the next pair.  The result lists
    the agent after each call, in order. *)
Fixpoint run (p : t) (dish : PetriDish.t) (readings : list (R * R))
  : Rand (list t) :=
  match readings with
  | [] => ret []
  | (l, r) :: rest =>
      p' <- update_state (set_readings p l r) dish ;;
      later <- run p' dish rest ;;
      ret (p' :: later)
  end.

End Protozoa.

(** ** class Simulation: the objects it owns and its [update] *)

Module Simulation.

Record t : Type := mk {
  dish : PetriDish.t;
  agent : Protozoa.t
}.

(** [self.dish.update()] *)
Definition dish_update (s : t) : Rand t :=
  d <- PetriDish.update (dish s) ;;
  ret {| dish := d; agent := agent s |}.

(** [self.agent.sense(self.dish)] *)
Definition agent_sense (s : t) : option t :=
  match Protozoa.sense (agent s) (dish s) with
  | None => None
  | Some a => Some {| dish := dish s; agent := a |}
  end.

(** [self.agent.update_state(self.dish)] *)
Definition agent_update_state (s : t) : Rand t :=
  a <- Protozoa.update_state (agent s) (dish s) ;;
  ret {| dish := dish s; agent := a |}.

(** [update]: the three calls of one tick, in order. *)
Definition update (s : t) (g : Rng) : option (t * Rng) :=
  let (s1, g1) := dish_update s g in
  match agent_sense s1 with
  | None => None
  | Some s2 => Some (agent_update_state s2 g1)
  end.

End Simulation.

(** ** The concentration as the specification words it *)

(** [clamp lo hi v] brings [v] into the interval from [lo] to [hi]. *)
Definition clamp (lo hi v : R) : R :=
  if Rlt_dec v lo then lo else if Rlt_dec hi v then hi else v.

(** The Gaussian contribution of one source at [(px, py)]. *)
Definition contribution (px py : R) (s : Source.t) : R :=
  Source.intensity s *
  exp (- ((px - Source.x s) ^ 2 + (py - Source.y s) ^ 2)
       / (2 * Source.radius s ^ 2)).

(** The sum of the contributions of all sources, clamped to [0, 1]. *)
Definition concentration_spec (srcs : list Source.t) (px py : R) : R :=
  clamp 0 1 (fold_right Rplus 0 (map (contribution px py) srcs)).

(** * Properties *)

(** ** Clamping and the float remainder *)

Lemma py_clamp_unit (c : R) : 0 <= py_min 1.0 (py_max 0.0 c) <= 1.
Proof.
  unfold py_min, py_max, Rmin, Rmax.
  destruct (Rle_dec 0.0 c); destruct (Rle_dec 1.0 _); lra.
Qed.

Lemma py_clamp_bounds (hi v : R) :
  0 <= hi -> 0 <= py_max 0 (py_min hi v) <= hi.
Proof.
  intros Hhi. unfold py_min, py_max, Rmin, Rmax.
  destruct (Rle_dec hi v); destruct (Rle_dec 0 _); lra.
Qed.

Lemma py_clamp_energy (e : R) : 0 <= py_max 0.0 (py_min 1.0 e) <= 1.
Proof.
  unfold py_min, py_max, Rmin, Rmax.
  destruct (Rle_dec 1.0 e); destruct (Rle_dec 0.0 _); lra.
Qed.

Lemma py_clamp_is_clamp (c : R) :
  py_min 1.0 (py_max 0.0 c) = clamp 0 1 c.
Proof.
  unfold py_min, py_max, clamp, Rmin, Rmax.
  destruct (Rle_dec 0.0 c); destruct (Rle_dec 1.0 _);
    destruct (Rlt_dec c 0); try destruct (Rlt_dec 1 c); lra.
Qed.

Lemma py_mod_range (a m : R) : 0 < m -> 0 <= py_mod a m < m.
Proof.
  intros Hm. unfold py_mod.
  destruct (base_Int_part (a / m)) as [Hlo Hhi].
  set (k := IZR (Int_part (a / m))) in *.
  assert (Ha : a = a / m * m) by (field; lra).
  split.
  - assert (k * m <= a / m * m) by (apply Rmult_le_compat_r; lra). lra.
  - assert (a / m * m < (k + 1) * m) by (apply Rmult_lt_compat_r; lra). lra.
Qed.

(** ** The generator: drawing moves the cursor and nothing else *)

Definition same_tape (g g' : Rng) : Prop :=
  floats g' = floats g /\ ints g' = ints g.

Lemma same_tape_refl g : same_tape g g.
Proof. split; reflexivity. Qed.

Lemma same_tape_trans g1 g2 g3 :
  same_tape g1 g2 -> same_tape g2 g3 -> same_tape g1 g3.
Proof. intros [A B] [C D]. split; congruence. Qed.

Lemma same_tape_wf g g' : same_tape g g' -> wf_rng g -> wf_rng g'.
Proof. intros [A _] H i. rewrite A. apply H. Qed.

Lemma uniform_run (a b : R) (g : Rng) :
  random.uniform a b g = (a + (b - a) * floats g (cursor g), advance g).
Proof. reflexivity. Qed.

Lemma uniform_range (a b : R) (g : Rng) :
  wf_rng g -> a <= b ->
  a <= fst (random.uniform a b g) <= b.
Proof.
  intros Hg Hab. rewrite uniform_run. simpl.
  destruct (Hg (cursor g)) as [H0 H1]. split; nra.
Qed.

Lemma advance_tape g : same_tape g (advance g).
Proof. split; reflexivity. Qed.

Lemma randint_range (a b : Z) (g : Rng) :
  (a <= b)%Z -> (a <= fst (random.randint a b g) <= b)%Z.
Proof.
  intros Hab. unfold random.randint, random.randbelow, bind, ret. simpl.
  assert (Hn : Z.to_nat (b - a + 1) <> O) by lia.
  pose proof (Nat.mod_upper_bound (ints g (cursor g)) _ Hn). lia.
Qed.

(** ** The dish *)

Lemma create_random_source_run (w h : R) (g : Rng) :
  PetriDish._create_random_source w h g =
  ({| Source.x := 0 + (w - 0) * floats g (cursor g);
      Source.y := 0 + (h - 0) * floats g (S (cursor g));
      Source.radius := 5.0 + (15.0 - 5.0) * floats g (S (S (cursor g)));
      Source.intensity :=
        0.5 + (1.0 - 0.5) * floats g (S (S (S (cursor g)))) |},
   advance (advance (advance (advance g)))).
Proof. reflexivity. Qed.

Lemma create_random_source_tape w h g :
  same_tape g (snd (PetriDish._create_random_source w h g)).
Proof. rewrite create_random_source_run. split; reflexivity. Qed.

Lemma create_random_source_intensity w h g :
  wf_rng g ->
  0.5 <= Source.intensity (fst (PetriDish._create_random_source w h g)) <= 1.
Proof.
  intros Hg. rewrite create_random_source_run. simpl.
  destruct (Hg (S (S (S (cursor g))))). lra.
Qed.

(** What [update] leaves in a slot that held [s]: either the decayed and
    drifted source, or a fresh one when the decayed intensity is below
    the threshold. *)
Definition slot_updated (s s' : Source.t) : Prop :=
  (~ Source.intensity s * PetriDish.decay_factor
       < PetriDish.respawn_threshold /\
   Source.intensity s' = Source.intensity s * PetriDish.decay_factor /\
   Source.radius s' = Source.radius s)
  \/
  (Source.intensity s * PetriDish.decay_factor
     < PetriDish.respawn_threshold /\
   0.5 <= Source.intensity s' <= 1).

Lemma update_source_spec w h s g :
  wf_rng g ->
  slot_updated s (fst (PetriDish.update_source w h s g)) /\
  same_tape g (snd (PetriDish.update_source w h s g)).
Proof.
  intros Hg. unfold PetriDish.update_source, bind.
  rewrite !uniform_run.
  destruct (Rlt_dec _ _) as [Hlt | Hge].
  - split.
    + right. split; [exact Hlt |].
      apply create_random_source_intensity.
      intros i. apply Hg.
    + eapply same_tape_trans; [| apply create_random_source_tape].
      split; reflexivity.
  - simpl. split; [left; auto | split; reflexivity].
Qed.

Lemma update_sources_spec w h srcs : forall g,
  wf_rng g ->
  Forall2 slot_updated srcs (fst (PetriDish.update_sources w h srcs g)) /\
  same_tape g (snd (PetriDish.update_sources w h srcs g)).
Proof.
  induction srcs as [| s rest IH]; intros g Hg; simpl.
  - split; [constructor | apply same_tape_refl].
  - unfold bind.
    destruct (update_source_spec w h s g Hg) as [Hs Ht].
    destruct (PetriDish.update_source w h s g) as [s' g1]. simpl in *.
    destruct (IH g1 (same_tape_wf _ _ Ht Hg)) as [Hrest Ht'].
    destruct (PetriDish.update_sources w h rest g1) as [rest' g2].
    simpl in *. split.
    + constructor; assumption.
    + eapply same_tape_trans; eassumption.
Qed.

Lemma update_sources_length w h srcs : forall g,
  length (fst (PetriDish.update_sources w h srcs g)) = length srcs.
Proof.
  induction srcs as [| s rest IH]; intros g; simpl; [reflexivity |].
  unfold bind.
  destruct (PetriDish.update_source w h s g) as [s' g1].
  specialize (IH g1).
  destruct (PetriDish.update_sources w h rest g1) as [rest' g2].
  simpl in *. congruence.
Qed.

Lemma update_length d g :
  length (PetriDish.sources (fst (PetriDish.update d g))) =
  length (PetriDish.sources d).
Proof.
  unfold PetriDish.update, bind.
  pose proof (update_sources_length (PetriDish.width d) (PetriDish.height d)
                (PetriDish.sources d) g) as H.
  destruct (PetriDish.update_sources _ _ _ g) as [srcs g']. exact H.
Qed.

Lemma updates_length n : forall d g,
  length (PetriDish.sources (fst (PetriDish.updates n d g))) =
  length (PetriDish.sources d).
Proof.
  induction n as [| n IH]; intros d g; simpl; [reflexivity |].
  unfold bind. pose proof (update_length d g) as H.
  destruct (PetriDish.update d g) as [d' g']. simpl in H.
  rewrite IH. exact H.
Qed.

Lemma append_sources_length w h n : forall acc g,
  length (fst (PetriDish.append_sources w h n acc g)) = (length acc + n)%nat.
Proof.
  induction n as [| n IH]; intros acc g; simpl.
  - lia.
  - unfold bind.
    destruct (PetriDish._create_random_source w h g) as [s g1].
    rewrite IH, length_app. simpl. lia.
Qed.

Lemma init_length w h g :
  (5 <= length (PetriDish.sources (fst (PetriDish.__init__ w h g))) <= 10)%nat.
Proof.
  unfold PetriDish.__init__, PetriDish._init_sources, bind.
  pose proof (randint_range 5 10 g ltac:(lia)) as Hr.
  destruct (random.randint 5 10 g) as [k g1]. simpl in Hr |- *.
  pose proof (append_sources_length w h (Z.to_nat k) [] g1) as Hl.
  destruct (PetriDish.append_sources w h (Z.to_nat k) [] g1) as [srcs g2].
  simpl in *. lia.
Qed.

Lemma gaussian_defined px py s :
  Source.radius s <> 0 ->
  PetriDish.gaussian px py s = Some (contribution px py s).
Proof.
  intros Hr. unfold PetriDish.gaussian, contribution.
  destruct (Req_dec_T _ _) as [Hz | _].
  - exfalso. assert (Source.radius s * Source.radius s = 0) by lra.
    destruct (Rmult_integral _ _ H); contradiction.
  - do 3 f_equal. f_equal. ring.
Qed.

Lemma accumulate_sum px py srcs : forall c,
  Forall (fun s => Source.radius s <> 0) srcs ->
  PetriDish.accumulate px py srcs c =
  Some (c + fold_right Rplus 0 (map (contribution px py) srcs)).
Proof.
  induction srcs as [| s rest IH]; intros c Hr; simpl.
  - f_equal. ring.
  - inversion Hr as [| ? ? Hs Hrest]; subst.
    rewrite (gaussian_defined _ _ _ Hs), (IH _ Hrest). f_equal. ring.
Qed.

Lemma concentration_refines d px py :
  Forall (fun s => Source.radius s <> 0) (PetriDish.sources d) ->
  PetriDish.get_concentration d px py =
  Some (concentration_spec (PetriDish.sources d) px py).
Proof.
  intros Hr. unfold PetriDish.get_concentration, concentration_spec.
  rewrite (accumulate_sum _ _ _ _ Hr), py_clamp_is_clamp.
  do 2 f_equal. lra.
Qed.

Lemma positive_radii_nonzero srcs :
  Forall (fun s => 0 < Source.radius s) srcs ->
  Forall (fun s => Source.radius s <> 0) srcs.
Proof. apply Forall_impl. intros s H. lra. Qed.

(** Dishes used in the examples below. *)

Definition source_at (sx sy r i : R) : Source.t :=
  {| Source.x := sx; Source.y := sy;
     Source.radius := r; Source.intensity := i |}.

Definition dish_of (srcs : list Source.t) : PetriDish.t :=
  {| PetriDish.width := 100.0; PetriDish.height := 100.0;
     PetriDish.sources := srcs |}.

Definition two_sources : PetriDish.t :=
  dish_of [source_at 50.0 50.0 10.0 1.0; source_at 50.0 50.0 10.0 0.5].

(** A generator whose every float is [u] and every raw integer is 0. *)
Definition constant_rng (u : R) : Rng :=
  {| floats := fun _ => u; ints := fun _ => O; cursor := O |}.

Lemma constant_rng_wf u : 0 <= u < 1 -> wf_rng (constant_rng u).
Proof. intros H i. exact H. Qed.

(** ** The claims about the dish *)

(** C1. For every dish whose sources have positive radii and every point
    [(px, py)] of the plane, inside or outside the domain,
    [get_concentration] returns a value, and that value lies between 0
    and 1. *)
Theorem concentration_in_unit_interval d px py :
  Forall (fun s => 0 < Source.radius s) (PetriDish.sources d) ->
  exists c, PetriDish.get_concentration d px py = Some c /\ 0 <= c <= 1.
Proof.
  intros Hr. apply positive_radii_nonzero in Hr.
  unfold PetriDish.get_concentration.
  rewrite (accumulate_sum _ _ _ _ Hr).
  eexists. split; [reflexivity | apply py_clamp_unit].
Qed.

Lemma concentration_in_unit_interval_witness :
  exists c, PetriDish.get_concentration two_sources 1000000 (-1000000) = Some c
            /\ 0 <= c <= 1.
Proof.
  apply (concentration_in_unit_interval two_sources 1000000 (-1000000)).
  repeat constructor; simpl; lra.
Defined.

(** C2. [get_concentration] returns the clamp to [0, 1] of the sum over
    the sources of [intensity * exp (- ((x-sx)^2 + (y-sy)^2) / (2 * radius^2))];
    its value depends on the source list and the point only; for two
    sources of intensity 1.0 and 0.5, both at (50, 50) with radius 10,
    the sum at (50, 50) is 1.5 and the value returned is 1. *)
Theorem concentration_is_clamped_sum :
  (forall d px py,
     Forall (fun s => Source.radius s <> 0) (PetriDish.sources d) ->
     PetriDish.get_concentration d px py =
     Some (concentration_spec (PetriDish.sources d) px py)) /\
  (forall d1 d2 px py,
     PetriDish.sources d1 = PetriDish.sources d2 ->
     PetriDish.get_concentration d1 px py =
     PetriDish.get_concentration d2 px py) /\
  PetriDish.accumulate 50.0 50.0 (PetriDish.sources two_sources) 0.0
    = Some 1.5 /\
  PetriDish.get_concentration two_sources 50.0 50.0 = Some 1.
Proof.
  split; [exact concentration_refines |].
  split.
  { intros d1 d2 px py H. unfold PetriDish.get_concentration.
    rewrite H. reflexivity. }
  assert (Hr : Forall (fun s => Source.radius s <> 0)
                 (PetriDish.sources two_sources))
    by (repeat constructor; simpl; lra).
  assert (Hsum : fold_right Rplus 0
            (map (contribution 50.0 50.0) (PetriDish.sources two_sources))
          = 1.5).
  { simpl. unfold contribution, source_at. simpl.
    replace (- ((50.0 - 50.0) * ((50.0 - 50.0) * 1)
                + (50.0 - 50.0) * ((50.0 - 50.0) * 1))
             / (2 * (10.0 * (10.0 * 1)))) with 0 by (field; lra).
    rewrite exp_0. lra. }
  split.
  - rewrite (accumulate_sum _ _ _ _ Hr), Hsum. f_equal. lra.
  - rewrite (concentration_refines _ _ _ Hr). unfold concentration_spec.
    rewrite Hsum. unfold clamp.
    destruct (Rlt_dec 1.5 0); [lra |].
    destruct (Rlt_dec 1 1.5); [reflexivity | lra].
Qed.

Lemma concentration_is_clamped_sum_witness :
  PetriDish.get_concentration two_sources 0 0 =
  Some (concentration_spec (PetriDish.sources two_sources) 0 0).
Proof.
  apply (proj1 concentration_is_clamped_sum two_sources 0 0).
  repeat constructor; simpl; lra.
Defined.

Lemma Forall2_nth_error {A B : Type} (P : A -> B -> Prop) l l' :
  Forall2 P l l' ->
  forall i a, nth_error l i = Some a ->
  exists b, nth_error l' i = Some b /\ P a b.
Proof.
  induction 1 as [| a0 b0 l l' Hab _ IH]; intros i a Hi.
  - destruct i; discriminate.
  - destruct i as [| i]; simpl in *.
    + injection Hi as <-. eauto.
    + eauto.
Qed.

Lemma update_slot d g i s :
  wf_rng g ->
  nth_error (PetriDish.sources d) i = Some s ->
  exists s', nth_error (PetriDish.sources (fst (PetriDish.update d g))) i
             = Some s' /\ slot_updated s s'.
Proof.
  intros Hg Hi. unfold PetriDish.update, bind.
  destruct (update_sources_spec (PetriDish.width d) (PetriDish.height d)
              (PetriDish.sources d) g Hg) as [HF _].
  destruct (PetriDish.update_sources _ _ _ g) as [srcs g']. simpl in *.
  eapply Forall2_nth_error; eassumption.
Qed.

(** C4. Right after construction the dish holds between 5 and 10
    sources; [update] never changes the number of sources of any dish;
    hence the count is between 5 and 10 after any number of updates. *)
Theorem source_count_invariant (w h : R) (g : Rng) :
  let d0 := fst (PetriDish.__init__ w h g) in
  let g0 := snd (PetriDish.__init__ w h g) in
  (5 <= length (PetriDish.sources d0) <= 10)%nat /\
  (forall d g', length (PetriDish.sources (fst (PetriDish.update d g')))
                = length (PetriDish.sources d)) /\
  (forall n,
     (5 <= length (PetriDish.sources (fst (PetriDish.updates n d0 g0)))
        <= 10)%nat).
Proof.
  intros d0 g0. pose proof (init_length w h g) as H0. fold d0 in H0.
  split; [exact H0 |]. split; [exact update_length |].
  intros n. rewrite updates_length. exact H0.
Qed.

(** A dish with one source that is about to die. *)
Definition dying : Source.t := source_at 50.0 50.0 10.0 0.001.
Definition dying_dish : PetriDish.t := dish_of [dying].

Lemma update_dying_dish :
  nth_error
    (PetriDish.sources (fst (PetriDish.update dying_dish (constant_rng 0)))) 0
  = Some (fst (PetriDish._create_random_source 100.0 100.0
                 (advance (advance (constant_rng 0))))).
Proof.
  unfold PetriDish.update, dying_dish, dish_of, bind. simpl.
  unfold PetriDish.update_source, bind. rewrite !uniform_run.
  destruct (Rlt_dec _ _) as [_ | Hge].
  - rewrite create_random_source_run. reflexivity.
  - exfalso. apply Hge. simpl.
    unfold PetriDish.decay_factor, PetriDish.respawn_threshold. lra.
Qed.

(** C6, as stated, fails: a source of intensity 0.001 is above 0, and
    after one [update] its slot holds a fresh source of intensity 0.5. *)
Lemma strict_decay_counterexample :
  wf_rng (constant_rng 0) /\
  nth_error (PetriDish.sources dying_dish) 0 = Some dying /\
  0 < Source.intensity dying /\
  exists s',
    nth_error
      (PetriDish.sources (fst (PetriDish.update dying_dish (constant_rng 0))))
      0 = Some s' /\
    Source.intensity s' = 0.5 /\
    ~ Source.intensity s' < Source.intensity dying.
Proof.
  split; [apply constant_rng_wf; lra |].
  split; [reflexivity |].
  split; [simpl; lra |].
  eexists. split; [apply update_dying_dish |].
  rewrite create_random_source_run. simpl. split; lra.
Qed.

(** C6, amended. For every source of intensity above 0 whose decayed
    intensity [0.995 * intensity] is not below the respawn threshold
    0.05, after one [update] the source in its slot has intensity
    [0.995 * intensity], strictly smaller than before. *)
Theorem intensity_decays_unless_respawned d g i s :
  wf_rng g ->
  nth_error (PetriDish.sources d) i = Some s ->
  0 < Source.intensity s ->
  ~ Source.intensity s * PetriDish.decay_factor
      < PetriDish.respawn_threshold ->
  exists s',
    nth_error (PetriDish.sources (fst (PetriDish.update d g))) i = Some s' /\
    Source.intensity s' = Source.intensity s * PetriDish.decay_factor /\
    Source.intensity s' < Source.intensity s.
Proof.
  intros Hg Hi Hpos Hkeep.
  destruct (update_slot d g i s Hg Hi) as [s' [Hs' Hu]].
  exists s'. split; [exact Hs' |].
  destruct Hu as [[_ [Hint _]] | [Hlt _]]; [| contradiction].
  split; [exact Hint |]. rewrite Hint.
  unfold PetriDish.decay_factor. lra.
Qed.

Definition healthy_dish : PetriDish.t :=
  dish_of [source_at 50.0 50.0 10.0 1.0].

Lemma intensity_decays_unless_respawned_witness :
  exists s',
    nth_error
      (PetriDish.sources
         (fst (PetriDish.update healthy_dish (constant_rng 0)))) 0
    = Some s' /\
    Source.intensity s' = 1.0 * PetriDish.decay_factor /\
    Source.intensity s' < 1.0.
Proof.
  apply (intensity_decays_unless_respawned healthy_dish (constant_rng 0) 0
           (source_at 50.0 50.0 10.0 1.0)).
  - apply constant_rng_wf. lra.
  - reflexivity.
  - simpl. lra.
  - simpl. unfold PetriDish.decay_factor, PetriDish.respawn_threshold. lra.
Defined.

(** C7. For every source whose intensity is below the respawn threshold,
    after one [update] the source in its slot has intensity above 0.1:
    it is a fresh one, with intensity between 0.5 and 1. *)
Theorem dying_source_respawns d g i s :
  wf_rng g ->
  nth_error (PetriDish.sources d) i = Some s ->
  Source.intensity s < PetriDish.respawn_threshold ->
  exists s',
    nth_error (PetriDish.sources (fst (PetriDish.update d g))) i = Some s' /\
    0.1 < Source.intensity s' /\
    0.5 <= Source.intensity s' <= 1.
Proof.
  intros Hg Hi Hlow.
  destruct (update_slot d g i s Hg Hi) as [s' [Hs' Hu]].
  exists s'. split; [exact Hs' |].
  destruct Hu as [[Hkeep _] | [_ Hfresh]].
  - exfalso. apply Hkeep.
    unfold PetriDish.decay_factor, PetriDish.respawn_threshold in *. lra.
  - lra.
Qed.

Lemma dying_source_respawns_witness :
  exists s',
    nth_error
      (PetriDish.sources (fst (PetriDish.update dying_dish (constant_rng 0))))
      0 = Some s' /\
    0.1 < Source.intensity s' /\
    0.5 <= Source.intensity s' <= 1.
Proof.
  apply (dying_source_respawns dying_dish (constant_rng 0) 0 dying).
  - apply constant_rng_wf. lra.
  - reflexivity.
  - simpl. unfold PetriDish.respawn_threshold. lra.
Defined.

(** ** The claims about the agent *)

Lemma update_state_run p dish g :
  snd (Protozoa.update_state p dish g) = advance g.
Proof. reflexivity. Qed.

Lemma update_state_energy p dish g :
  0 <= Protozoa.energy (fst (Protozoa.update_state p dish g)) <= 1.
Proof.
  unfold Protozoa.update_state, Protozoa.d_theta, bind.
  rewrite uniform_run. simpl. apply py_clamp_energy.
Qed.

Lemma run_length readings : forall p dish g,
  length (fst (Protozoa.run p dish readings g)) = length readings.
Proof.
  induction readings as [| [l r] rest IH]; intros p dish g; simpl.
  - reflexivity.
  - unfold bind.
    destruct (Protozoa.update_state _ dish g) as [p' g1].
    specialize (IH p' dish g1).
    destruct (Protozoa.run p' dish rest g1) as [later g2].
    simpl in *. congruence.
Qed.

(** C3. Whatever the starting energy, the readings of each tick and the
    noise drawn, a run of ticks yields one agent state per tick, and in
    each of them the energy lies between 0 and 1. *)
Theorem energy_stays_in_unit_interval readings : forall p dish g,
  length (fst (Protozoa.run p dish readings g)) = length readings /\
  Forall (fun q => 0 <= Protozoa.energy q <= 1)
         (fst (Protozoa.run p dish readings g)).
Proof.
  intros p dish g. split; [apply run_length |]. revert p dish g.
  induction readings as [| [l r] rest IH]; intros p dish g; simpl.
  - constructor.
  - unfold bind.
    pose proof (update_state_energy (Protozoa.set_readings p l r) dish g)
      as He.
    destruct (Protozoa.update_state _ dish g) as [p' g1].
    specialize (IH p' dish g1).
    destruct (Protozoa.run p' dish rest g1) as [later g2].
    simpl in *. constructor; assumption.
Qed.

(** The agent of the control-law test: at (50, 50), heading 0, at rest,
    full energy, readings 0.2 on the left and 0.0 on the right. *)
Definition hungry : Protozoa.t :=
  {| Protozoa.x := 50.0; Protozoa.y := 50.0; Protozoa.angle := 0.0;
     Protozoa.speed := 0.0; Protozoa.val_l := 0.2; Protozoa.val_r := 0.0;
     Protozoa.energy := 1.0 |}.

Lemma hungry_error p :
  Protozoa.val_l p = 0.2 -> Protozoa.val_r p = 0.0 ->
  Protozoa.error p = -0.7 /\ Protozoa.gradient p = 0.2 /\
  Protozoa.steering p = 0.021 /\ Rabs (Protozoa.error p) = 0.7.
Proof.
  intros Hl Hr.
  assert (He : Protozoa.error p = -0.7).
  { unfold Protozoa.error, Protozoa.mean_sense. rewrite Hl, Hr.
    simpl. lra. }
  assert (Hg : Protozoa.gradient p = 0.2).
  { unfold Protozoa.gradient. rewrite Hl, Hr. lra. }
  repeat split; try assumption.
  - unfold Protozoa.steering. rewrite He, Hg. simpl. lra.
  - rewrite He. unfold Rabs. destruct (Rcase_abs (-0.7)); lra.
Qed.

(** C5, as stated, fails: when [random.uniform(-0.5, 0.5)] returns -0.5
    the heading change of the test agent is -0.329, a turn to the right. *)
Lemma heading_change_counterexample :
  wf_rng (constant_rng 0) /\
  Protozoa.val_l hungry = 0.2 /\ Protozoa.val_r hungry = 0.0 /\
  fst (random.uniform (-0.5) 0.5 (constant_rng 0)) = -0.5 /\
  fst (Protozoa.d_theta hungry (constant_rng 0)) = -0.329 /\
  ~ 0 < fst (Protozoa.d_theta hungry (constant_rng 0)).
Proof.
  destruct (hungry_error hungry eq_refl eq_refl) as [_ [_ [Hs Ha]]].
  assert (Hd : fst (Protozoa.d_theta hungry (constant_rng 0)) = -0.329).
  { unfold Protozoa.d_theta, bind. rewrite uniform_run. simpl.
    unfold Protozoa.d_theta_of. rewrite Hs, Ha. lra. }
  split; [apply constant_rng_wf; lra |].
  repeat split; try reflexivity.
  - rewrite uniform_run. simpl. lra.
  - exact Hd.
  - rewrite Hd. lra.
Qed.

(** C5, amended. For an agent whose readings are 0.2 on the left and 0.0
    on the right (error -0.7, gradient 0.2), the noise-free part of the
    heading change is 0.021, positive; the heading change is
    [0.021 + 0.7 * u] where [u], between -0.5 and 0.5, is the value
    [random.uniform(-0.5, 0.5)] returns, so it is positive exactly when
    [u] is above -0.03; and for every draw the resulting speed is above
    0. *)
Theorem control_law_sign p dish g :
  Protozoa.val_l p = 0.2 -> Protozoa.val_r p = 0.0 -> wf_rng g ->
  let u := fst (random.uniform (-0.5) 0.5 g) in
  Protozoa.error p = -0.7 /\ Protozoa.gradient p = 0.2 /\
  0 < Protozoa.steering p /\
  -0.5 <= u < 0.5 /\
  fst (Protozoa.d_theta p g) = 0.021 + 0.7 * u /\
  (0 < fst (Protozoa.d_theta p g) <-> -0.03 < u) /\
  0 < Protozoa.speed (fst (Protozoa.update_state p dish g)).
Proof.
  intros Hl Hr Hg u.
  destruct (hungry_error p Hl Hr) as [He [Hgr [Hs Ha]]].
  assert (Hd : fst (Protozoa.d_theta p g) = 0.021 + 0.7 * u).
  { unfold Protozoa.d_theta, bind. subst u. rewrite uniform_run. simpl.
    unfold Protozoa.d_theta_of. rewrite Hs, Ha. lra. }
  repeat split; try assumption.
  - rewrite Hs. lra.
  - subst u. rewrite uniform_run. simpl. destruct (Hg (cursor g)). lra.
  - subst u. rewrite uniform_run. simpl. destruct (Hg (cursor g)). lra.
  - rewrite Hd. lra.
  - rewrite Hd. lra.
  - unfold Protozoa.update_state, Protozoa.d_theta, bind.
    rewrite uniform_run. simpl. rewrite Ha.
    destruct (Rle_dec _ _); lra.
Qed.

Lemma control_law_sign_witness :
  0 < Protozoa.speed
        (fst (Protozoa.update_state hungry (dish_of []) (constant_rng 0))).
Proof.
  apply (control_law_sign hungry (dish_of []) (constant_rng 0)).
  - reflexivity.
  - reflexivity.
  - apply constant_rng_wf. lra.
Defined.

(** C8. For every dish with non-negative bounds, every agent, wherever
    it stands, and every draw, after [update_state] the agent's position
    satisfies [0 <= x <= width] and [0 <= y <= height]. *)
Theorem position_clamped p dish g :
  0 <= PetriDish.width dish -> 0 <= PetriDish.height dish ->
  let p' := fst (Protozoa.update_state p dish g) in
  0 <= Protozoa.x p' <= PetriDish.width dish /\
  0 <= Protozoa.y p' <= PetriDish.height dish.
Proof.
  intros Hw Hh. unfold Protozoa.update_state, Protozoa.d_theta, bind.
  rewrite uniform_run. simpl.
  split; apply py_clamp_bounds; assumption.
Qed.

(** The agent of the boundary test: outside the dish at (105, -5). *)
Definition outside : Protozoa.t :=
  {| Protozoa.x := 105.0; Protozoa.y := -5.0; Protozoa.angle := 0.0;
     Protozoa.speed := 0.0; Protozoa.val_l := 0.8; Protozoa.val_r := 0.8;
     Protozoa.energy := 1.0 |}.

Lemma position_clamped_witness :
  let p' := fst (Protozoa.update_state outside (dish_of []) (constant_rng 0)) in
  0 <= Protozoa.x p' <= 100.0 /\ 0 <= Protozoa.y p' <= 100.0.
Proof.
  apply (position_clamped outside (dish_of []) (constant_rng 0));
    simpl; lra.
Defined.

(** C9. Whatever the heading before and the heading change, the angle
    [update_state] stores is the outcome of the reduction modulo [2 * PI]:
    it is never negative, and it is below [2 * PI]. *)
Theorem angle_never_negative p dish g :
  Protozoa.angle (fst (Protozoa.update_state p dish g)) =
    py_mod (Protozoa.angle p + fst (Protozoa.d_theta p g)) (2 * PI) /\
  0 <= Protozoa.angle (fst (Protozoa.update_state p dish g)) < 2 * PI.
Proof.
  unfold Protozoa.update_state, Protozoa.d_theta, bind.
  rewrite uniform_run. simpl. split; [reflexivity |].
  apply py_mod_range. pose proof PI_RGT_0. lra.
Qed.

(** C10. The call [self.agent.update_state(self.dish)] leaves the dish
    as it was and leaves the agent's two readings as they were; the new
    agent depends on the dish through its width and height only; of the
    generator, one draw is consumed. *)
Theorem update_state_frame s g :
  let s' := fst (Simulation.agent_update_state s g) in
  Simulation.dish s' = Simulation.dish s /\
  Protozoa.val_l (Simulation.agent s') = Protozoa.val_l (Simulation.agent s) /\
  Protozoa.val_r (Simulation.agent s') = Protozoa.val_r (Simulation.agent s) /\
  Simulation.agent s' =
    fst (Protozoa.update_state (Simulation.agent s) (Simulation.dish s) g) /\
  (forall dish2,
     PetriDish.width dish2 = PetriDish.width (Simulation.dish s) ->
     PetriDish.height dish2 = PetriDish.height (Simulation.dish s) ->
     Protozoa.update_state (Simulation.agent s) dish2 g =
     Protozoa.update_state (Simulation.agent s) (Simulation.dish s) g) /\
  snd (Simulation.agent_update_state s g) = advance g.
Proof.
  unfold Simulation.agent_update_state, Protozoa.update_state,
    Protozoa.d_theta, bind.
  rewrite uniform_run. simpl.
  repeat split; try reflexivity.
  intros dish2 Hw Hh. rewrite Hw, Hh. reflexivity.
Qed.

(** * Further properties of the dish *)

(** ** Fresh sources and construction *)

(** The ranges [_create_random_source] draws from. *)
Definition fresh_source_ok (w h : R) (s : Source.t) : Prop :=
  0 <= Source.x s <= w /\ 0 <= Source.y s <= h /\
  5 <= Source.radius s <= 15 /\ 0.5 <= Source.intensity s <= 1.

(** What holds of every source of a dish in use: inside the bounds, a
    radius from the construction range, an intensity between the respawn
    threshold and 1. *)
Definition valid_source (w h : R) (s : Source.t) : Prop :=
  0 <= Source.x s <= w /\ 0 <= Source.y s <= h /\
  5 <= Source.radius s <= 15 /\
  PetriDish.respawn_threshold <= Source.intensity s <= 1.

Definition valid_dish (d : PetriDish.t) : Prop :=
  0 <= PetriDish.width d /\ 0 <= PetriDish.height d /\
  Forall (valid_source (PetriDish.width d) (PetriDish.height d))
         (PetriDish.sources d).

Lemma create_random_source_ok w h g :
  wf_rng g -> 0 <= w -> 0 <= h ->
  fresh_source_ok w h (fst (PetriDish._create_random_source w h g)).
Proof.
  intros Hg Hw Hh. rewrite create_random_source_run.
  unfold fresh_source_ok. simpl.
  pose proof (Hg (cursor g)). pose proof (Hg (S (cursor g))).
  pose proof (Hg (S (S (cursor g)))).
  pose proof (Hg (S (S (S (cursor g))))).
  repeat split; nra.
Qed.

Lemma fresh_source_valid w h s : fresh_source_ok w h s -> valid_source w h s.
Proof.
  unfold fresh_source_ok, valid_source, PetriDish.respawn_threshold.
  intros [Hx [Hy [Hr Hi]]]. repeat split; lra.
Qed.

Lemma append_sources_Forall (P : Source.t -> Prop) w h :
  (forall g, wf_rng g -> P (fst (PetriDish._create_random_source w h g))) ->
  forall n acc g, wf_rng g -> Forall P acc ->
  Forall P (fst (PetriDish.append_sources w h n acc g)).
Proof.
  intros Hfresh. induction n as [| n IH]; intros acc g Hg Hacc; simpl.
  - exact Hacc.
  - unfold bind. pose proof (Hfresh g Hg) as Hs.
    pose proof (create_random_source_tape w h g) as Ht.
    destruct (PetriDish._create_random_source w h g) as [s g1].
    simpl in *. apply IH.
    + eapply same_tape_wf; eassumption.
    + apply Forall_app. split; [exact Hacc |].
      constructor; [exact Hs | constructor].
Qed.

Lemma append_sources_tape w h : forall n acc g,
  same_tape g (snd (PetriDish.append_sources w h n acc g)).
Proof.
  induction n as [| n IH]; intros acc g; simpl.
  - apply same_tape_refl.
  - unfold bind. pose proof (create_random_source_tape w h g) as Ht.
    destruct (PetriDish._create_random_source w h g) as [s g1].
    simpl in *. eapply same_tape_trans; [exact Ht | apply IH].
Qed.

Lemma init_fresh w h g :
  wf_rng g -> 0 <= w -> 0 <= h ->
  PetriDish.width (fst (PetriDish.__init__ w h g)) = w /\
  PetriDish.height (fst (PetriDish.__init__ w h g)) = h /\
  Forall (fresh_source_ok w h)
         (PetriDish.sources (fst (PetriDish.__init__ w h g))) /\
  same_tape g (snd (PetriDish.__init__ w h g)).
Proof.
  intros Hg Hw Hh.
  unfold PetriDish.__init__, PetriDish._init_sources, bind.
  unfold random.randint, random.randbelow, bind, ret. simpl.
  set (k := Z.to_nat _).
  assert (Hg1 : wf_rng (advance g))
    by (eapply same_tape_wf; [apply advance_tape | exact Hg]).
  pose proof (append_sources_Forall (fresh_source_ok w h) w h
                (fun g' Hg' => create_random_source_ok w h g' Hg' Hw Hh)
                k [] (advance g) Hg1 (Forall_nil _)) as HF.
  pose proof (append_sources_tape w h k [] (advance g)) as Ht.
  destruct (PetriDish.append_sources w h k [] (advance g)) as [srcs g2].
  simpl in *. repeat split; try assumption.
  - destruct Ht as [A _]. rewrite A. reflexivity.
  - destruct Ht as [_ B]. rewrite B. reflexivity.
Qed.

(** X1. With non-negative bounds, a source made by
    [_create_random_source] lies inside the bounds, has a radius between
    5 and 15 and an intensity between 0.5 and 1; four draws are made. *)
Theorem fresh_source_ranges w h g :
  wf_rng g -> 0 <= w -> 0 <= h ->
  fresh_source_ok w h (fst (PetriDish._create_random_source w h g)) /\
  cursor (snd (PetriDish._create_random_source w h g)) = (cursor g + 4)%nat.
Proof.
  intros Hg Hw Hh. split.
  - apply create_random_source_ok; assumption.
  - rewrite create_random_source_run. simpl. lia.
Qed.

Lemma fresh_source_ranges_witness :
  fresh_source_ok 100.0 100.0
    (fst (PetriDish._create_random_source 100.0 100.0 (constant_rng 0.5))).
Proof.
  apply (fresh_source_ranges 100.0 100.0 (constant_rng 0.5)).
  - apply constant_rng_wf. lra.
  - lra.
  - lra.
Defined.

(** X2. [PetriDish(w, h)] with non-negative bounds stores the bounds it
    is given, and every source it creates lies inside them, with radius
    between 5 and 15 and intensity between 0.5 and 1. *)
Theorem construction_sources_fresh w h g :
  wf_rng g -> 0 <= w -> 0 <= h ->
  let d := fst (PetriDish.__init__ w h g) in
  PetriDish.width d = w /\ PetriDish.height d = h /\
  Forall (fresh_source_ok w h) (PetriDish.sources d).
Proof.
  intros Hg Hw Hh d.
  destruct (init_fresh w h g Hg Hw Hh) as [A [B [C _]]]. auto.
Qed.

Lemma construction_sources_fresh_witness :
  let d := fst (PetriDish.__init__ 100.0 100.0 (constant_rng 0.5)) in
  PetriDish.width d = 100.0 /\ PetriDish.height d = 100.0 /\
  Forall (fresh_source_ok 100.0 100.0) (PetriDish.sources d).
Proof.
  apply (construction_sources_fresh 100.0 100.0 (constant_rng 0.5)).
  - apply constant_rng_wf. lra.
  - lra.
  - lra.
Defined.

(** ** When [get_concentration] fails *)

Lemma gaussian_none px py s :
  PetriDish.gaussian px py s = None <-> Source.radius s = 0.
Proof.
  unfold PetriDish.gaussian. destruct (Req_dec_T _ _) as [Hz | Hnz].
  - split; [intros _ | reflexivity].
    assert (H : Source.radius s * Source.radius s = 0) by lra.
    destruct (Rmult_integral _ _ H); assumption.
  - split; [discriminate |]. intros Hr. exfalso. apply Hnz.
    rewrite Hr. simpl. lra.
Qed.

Lemma accumulate_none px py srcs : forall c,
  PetriDish.accumulate px py srcs c = None <->
  Exists (fun s => Source.radius s = 0) srcs.
Proof.
  induction srcs as [| s rest IH]; intros c; simpl.
  - split; [discriminate | intros H; inversion H].
  - destruct (PetriDish.gaussian px py s) as [val |] eqn:Hg.
    + rewrite IH. split.
      * intros H. apply Exists_cons_tl. exact H.
      * intros H. inversion H as [? ? Hs | ? ? Hr]; subst; [| exact Hr].
        apply (gaussian_none px py) in Hs. congruence.
    + split; [| reflexivity]. intros _.
      apply Exists_cons_hd. apply (gaussian_none px py). exact Hg.
Qed.

Lemma concentration_none d px py :
  PetriDish.get_concentration d px py = None <->
  Exists (fun s => Source.radius s = 0) (PetriDish.sources d).
Proof.
  unfold PetriDish.get_concentration.
  rewrite <- (accumulate_none px py (PetriDish.sources d) 0.0).
  destruct (PetriDish.accumulate _ _ _ _); split; congruence.
Qed.

Lemma radii_cases (srcs : list Source.t) :
  Forall (fun s => Source.radius s <> 0) srcs \/
  Exists (fun s => Source.radius s = 0) srcs.
Proof.
  induction srcs as [| s rest [IH | IH]].
  - left. constructor.
  - destruct (Req_dec_T (Source.radius s) 0) as [Hz | Hnz].
    + right. apply Exists_cons_hd. exact Hz.
    + left. constructor; assumption.
  - right. apply Exists_cons_tl. exact IH.
Qed.

Lemma concentration_some_radii d px py c :
  PetriDish.get_concentration d px py = Some c ->
  Forall (fun s => Source.radius s <> 0) (PetriDish.sources d).
Proof.
  intros Hc. destruct (radii_cases (PetriDish.sources d)) as [H | H].
  - exact H.
  - apply (concentration_none d px py) in H. congruence.
Qed.

Lemma concentration_empty d px py :
  PetriDish.sources d = [] ->
  PetriDish.get_concentration d px py = Some 0.
Proof.
  intros He. unfold PetriDish.get_concentration. rewrite He. simpl.
  f_equal. unfold py_min, py_max, Rmin, Rmax.
  destruct (Rle_dec 0.0 0.0); destruct (Rle_dec 1.0 _); lra.
Qed.

(** X3. [get_concentration] fails, with the division by zero, exactly
    when some source of the dish has radius 0, whatever the point; on a
    dish without sources it returns 0. *)
Theorem concentration_fails_iff_zero_radius d px py :
  (PetriDish.get_concentration d px py = None <->
   Exists (fun s => Source.radius s = 0) (PetriDish.sources d)) /\
  (PetriDish.sources d = [] ->
   PetriDish.get_concentration d px py = Some 0).
Proof.
  split; [apply concentration_none | apply concentration_empty].
Qed.

Lemma concentration_fails_iff_zero_radius_witness :
  PetriDish.get_concentration (dish_of []) 3 4 = Some 0.
Proof.
  apply (proj2 (concentration_fails_iff_zero_radius (dish_of []) 3 4)).
  reflexivity.
Defined.

(** ** The concentration as a function of the source list *)

Lemma sum_contributions_perm px py l l' :
  Permutation l l' ->
  fold_right Rplus 0 (map (contribution px py) l) =
  fold_right Rplus 0 (map (contribution px py) l').
Proof.
  induction 1 as [| a l l' _ IH | a b l | l1 l2 l3 _ IH1 _ IH2]; simpl.
  - reflexivity.
  - rewrite IH. reflexivity.
  - ring.
  - congruence.
Qed.

Lemma sum_contributions_app px py l s :
  fold_right Rplus 0 (map (contribution px py) (l ++ [s])) =
  fold_right Rplus 0 (map (contribution px py) l) + contribution px py s.
Proof.
  induction l as [| a l IH]; simpl.
  - ring.
  - rewrite IH. ring.
Qed.

Lemma clamp_monotone a b : a <= b -> clamp 0 1 a <= clamp 0 1 b.
Proof.
  intros Hab. unfold clamp.
  destruct (Rlt_dec a 0); destruct (Rlt_dec b 0);
    try destruct (Rlt_dec 1 a); try destruct (Rlt_dec 1 b); lra.
Qed.

Lemma contribution_nonneg px py s :
  0 <= Source.intensity s -> 0 <= contribution px py s.
Proof.
  intros Hi. unfold contribution.
  apply Rmult_le_pos; [exact Hi | left; apply exp_pos].
Qed.

Lemma exp_nonpos_le_1 (z : R) : z <= 0 -> exp z <= 1.
Proof.
  intros [Hlt | Heq].
  - left. rewrite <- exp_0. apply exp_increasing. exact Hlt.
  - rewrite Heq, exp_0. lra.
Qed.

Lemma contribution_le_intensity px py s :
  Source.radius s <> 0 -> 0 <= Source.intensity s ->
  contribution px py s <= Source.intensity s.
Proof.
  intros Hr Hi. unfold contribution.
  rewrite <- (Rmult_1_r (Source.intensity s)) at 2.
  apply Rmult_le_compat_l; [exact Hi |].
  apply exp_nonpos_le_1.
  assert (Hpos : 0 < 2 * Source.radius s ^ 2).
  { assert (0 < Source.radius s * Source.radius s).
    { destruct (Rtotal_order (Source.radius s) 0) as [H | [H | H]];
        [nra | contradiction | nra]. }
    simpl. lra. }
  assert (Hd : 0 <= (px - Source.x s) ^ 2 + (py - Source.y s) ^ 2).
  { pose proof (pow2_ge_0 (px - Source.x s)).
    pose proof (pow2_ge_0 (py - Source.y s)). lra. }
  pose proof (Rinv_0_lt_compat _ Hpos) as Hinv.
  unfold Rdiv. nra.
Qed.

Lemma contribution_at_centre s :
  Source.radius s <> 0 ->
  contribution (Source.x s) (Source.y s) s = Source.intensity s.
Proof.
  intros Hr. unfold contribution.
  replace (- ((Source.x s - Source.x s) ^ 2 + (Source.y s - Source.y s) ^ 2)
           / (2 * Source.radius s ^ 2)) with 0 by (field; exact Hr).
  rewrite exp_0. ring.
Qed.

(** The dish [d] with its source list replaced: what assigning
    [dish.sources] leaves behind. *)
Definition with_sources (d : PetriDish.t) (srcs : list Source.t)
  : PetriDish.t :=
  {| PetriDish.width := PetriDish.width d;
     PetriDish.height := PetriDish.height d;
     PetriDish.sources := srcs |}.

(** X4. The order of the sources does not matter: two dishes whose
    source lists are permutations of each other give the same
    concentration, or both fail, at every point. *)
Theorem concentration_order_irrelevant d1 d2 px py :
  Permutation (PetriDish.sources d1) (PetriDish.sources d2) ->
  PetriDish.get_concentration d1 px py = PetriDish.get_concentration d2 px py.
Proof.
  intros Hp. destruct (radii_cases (PetriDish.sources d1)) as [Hr | Hz].
  - assert (Hr2 : Forall (fun s => Source.radius s <> 0)
                    (PetriDish.sources d2))
      by (eapply Permutation_Forall; eassumption).
    rewrite (concentration_refines d1 px py Hr),
            (concentration_refines d2 px py Hr2).
    unfold concentration_spec.
    rewrite (sum_contributions_perm px py _ _ Hp). reflexivity.
  - assert (Hz2 : Exists (fun s => Source.radius s = 0)
                    (PetriDish.sources d2))
      by (eapply Permutation_Exists; eassumption).
    apply (concentration_none d1 px py) in Hz.
    apply (concentration_none d2 px py) in Hz2. congruence.
Qed.

Lemma concentration_order_irrelevant_witness :
  PetriDish.get_concentration two_sources 0 0 =
  PetriDish.get_concentration
    (dish_of [source_at 50.0 50.0 10.0 0.5; source_at 50.0 50.0 10.0 1.0])
    0 0.
Proof.
  apply (concentration_order_irrelevant two_sources
           (dish_of [source_at 50.0 50.0 10.0 0.5;
                     source_at 50.0 50.0 10.0 1.0]) 0 0).
  apply perm_swap.
Defined.

(** X5. Appending a source of non-negative intensity and non-zero radius
    to a dish never lowers the concentration at any point: where the
    call returned [c] before, it returns some [c'] with [c <= c']
    after. *)
Theorem appended_source_never_lowers d s px py c :
  Source.radius s <> 0 -> 0 <= Source.intensity s ->
  PetriDish.get_concentration d px py = Some c ->
  exists c',
    PetriDish.get_concentration
      (with_sources d (PetriDish.sources d ++ [s])) px py = Some c' /\
    c <= c'.
Proof.
  intros Hr Hi Hc.
  pose proof (concentration_some_radii d px py c Hc) as Hrs.
  rewrite (concentration_refines d px py Hrs) in Hc. injection Hc as <-.
  assert (Hrs' : Forall (fun s0 => Source.radius s0 <> 0)
                   (PetriDish.sources
                      (with_sources d (PetriDish.sources d ++ [s])))).
  { simpl. apply Forall_app. split; [exact Hrs |].
    constructor; [exact Hr | constructor]. }
  rewrite (concentration_refines _ px py Hrs'). eexists.
  split; [reflexivity |]. simpl. unfold concentration_spec.
  apply clamp_monotone. rewrite sum_contributions_app.
  pose proof (contribution_nonneg px py s Hi). lra.
Qed.

Lemma appended_source_never_lowers_witness :
  exists c',
    PetriDish.get_concentration
      (with_sources (dish_of []) ([] ++ [source_at 50.0 50.0 10.0 1.0]))
      50.0 50.0 = Some c' /\
    0 <= c'.
Proof.
  apply (appended_source_never_lowers (dish_of [])
           (source_at 50.0 50.0 10.0 1.0) 50.0 50.0 0).
  - simpl. lra.
  - simpl. lra.
  - apply concentration_empty. reflexivity.
Defined.

(** X6. On a dish with a single source of non-negative intensity and
    non-zero radius, the concentration at the centre of the source is
    its intensity clamped to [0, 1], and the concentration at any other
    point is not higher. *)
Theorem single_source_peak d s px py :
  PetriDish.sources d = [s] ->
  Source.radius s <> 0 -> 0 <= Source.intensity s ->
  exists c,
    PetriDish.get_concentration d px py = Some c /\
    PetriDish.get_concentration d (Source.x s) (Source.y s)
      = Some (clamp 0 1 (Source.intensity s)) /\
    c <= clamp 0 1 (Source.intensity s).
Proof.
  intros Hs Hr Hi.
  assert (Hrs : Forall (fun s0 => Source.radius s0 <> 0)
                  (PetriDish.sources d))
    by (rewrite Hs; constructor; [exact Hr | constructor]).
  rewrite !(concentration_refines d _ _ Hrs). rewrite Hs.
  unfold concentration_spec. simpl.
  rewrite (contribution_at_centre s Hr). eexists.
  split; [reflexivity |]. split.
  - do 2 f_equal. ring.
  - apply clamp_monotone.
    pose proof (contribution_le_intensity px py s Hr Hi). lra.
Qed.

Lemma single_source_peak_witness :
  exists c,
    PetriDish.get_concentration healthy_dish 0 0 = Some c /\
    PetriDish.get_concentration healthy_dish 50.0 50.0
      = Some (clamp 0 1 1.0) /\
    c <= clamp 0 1 1.0.
Proof.
  apply (single_source_peak healthy_dish (source_at 50.0 50.0 10.0 1.0) 0 0).
  - reflexivity.
  - simpl. lra.
  - simpl. lra.
Defined.

(** ** What [update] does to each slot *)

(** The source [s'] that [update] leaves in the slot of [s]: either [s]
    decayed, drifted by at most the Brownian step and clamped into the
    bounds, with its radius kept; or, when the decayed intensity is below
    the threshold, a source made by [_create_random_source]. *)
Definition slot_step (w h : R) (s s' : Source.t) : Prop :=
  (~ Source.intensity s * PetriDish.decay_factor
       < PetriDish.respawn_threshold /\
   Source.intensity s' = Source.intensity s * PetriDish.decay_factor /\
   Source.radius s' = Source.radius s /\
   exists dx dy,
     - PetriDish.brownian_step <= dx <= PetriDish.brownian_step /\
     - PetriDish.brownian_step <= dy <= PetriDish.brownian_step /\
     Source.x s' = py_max 0 (py_min w (Source.x s + dx)) /\
     Source.y s' = py_max 0 (py_min h (Source.y s + dy)))
  \/
  (Source.intensity s * PetriDish.decay_factor
     < PetriDish.respawn_threshold /\
   exists g', wf_rng g' /\
     s' = fst (PetriDish._create_random_source w h g')).

Lemma update_source_step w h s g :
  wf_rng g ->
  slot_step w h s (fst (PetriDish.update_source w h s g)).
Proof.
  intros Hg. unfold PetriDish.update_source, bind.
  rewrite !uniform_run.
  destruct (Rlt_dec _ _) as [Hlt | Hge].
  - right. split; [exact Hlt |].
    eexists. split; [| reflexivity].
    intros i. apply Hg.
  - left. simpl. split; [exact Hge |].
    split; [reflexivity |]. split; [reflexivity |].
    eexists. eexists.
    split; [| split; [| split; reflexivity]].
    + pose proof (Hg (cursor g)). unfold PetriDish.brownian_step. lra.
    + pose proof (Hg (S (cursor g))). unfold PetriDish.brownian_step. lra.
Qed.

Lemma update_sources_step w h srcs : forall g,
  wf_rng g ->
  Forall2 (slot_step w h) srcs (fst (PetriDish.update_sources w h srcs g)).
Proof.
  induction srcs as [| s rest IH]; intros g Hg; simpl.
  - constructor.
  - unfold bind.
    pose proof (update_source_step w h s g Hg) as Hs.
    destruct (update_source_spec w h s g Hg) as [_ Ht].
    destruct (PetriDish.update_source w h s g) as [s' g1]. simpl in *.
    pose proof (IH g1 (same_tape_wf _ _ Ht Hg)) as Hrest.
    destruct (PetriDish.update_sources w h rest g1) as [rest' g2].
    simpl in *. constructor; assumption.
Qed.

Lemma update_step d g :
  wf_rng g ->
  PetriDish.width (fst (PetriDish.update d g)) = PetriDish.width d /\
  PetriDish.height (fst (PetriDish.update d g)) = PetriDish.height d /\
  Forall2 (slot_step (PetriDish.width d) (PetriDish.height d))
          (PetriDish.sources d)
          (PetriDish.sources (fst (PetriDish.update d g))) /\
  same_tape g (snd (PetriDish.update d g)).
Proof.
  intros Hg. unfold PetriDish.update, bind.
  pose proof (update_sources_step (PetriDish.width d) (PetriDish.height d)
                (PetriDish.sources d) g Hg) as HF.
  destruct (update_sources_spec (PetriDish.width d) (PetriDish.height d)
              (PetriDish.sources d) g Hg) as [_ Ht].
  destruct (PetriDish.update_sources _ _ _ g) as [srcs g']. simpl in *.
  auto.
Qed.

Lemma Forall2_right {A B : Type} (P : A -> B -> Prop) (Q : B -> Prop) l l' :
  Forall2 P l l' -> (forall a b, In a l -> P a b -> Q b) -> Forall Q l'.
Proof.
  induction 1 as [| a b l l' Hab _ IH]; intros HPQ.
  - constructor.
  - constructor.
    + apply (HPQ a b); [left; reflexivity | exact Hab].
    + apply IH. intros a0 b0 Hin. apply HPQ. right. exact Hin.
Qed.

Lemma slot_step_post w h s s' :
  0 <= w -> 0 <= h -> slot_step w h s s' ->
  0 <= Source.x s' <= w /\ 0 <= Source.y s' <= h /\
  PetriDish.respawn_threshold <= Source.intensity s'.
Proof.
  intros Hw Hh [[Hkeep [Hi [_ [dx [dy [_ [_ [Hx Hy]]]]]]]] | [_ [g' [Hg' ->]]]].
  - rewrite Hx, Hy, Hi.
    split; [apply py_clamp_bounds; exact Hw |].
    split; [apply py_clamp_bounds; exact Hh | lra].
  - destruct (create_random_source_ok w h g' Hg' Hw Hh) as [Hx [Hy [_ Hi]]].
    unfold PetriDish.respawn_threshold.
    split; [exact Hx |]. split; [exact Hy | lra].
Qed.

Lemma slot_step_valid w h s s' :
  0 <= w -> 0 <= h -> slot_step w h s s' ->
  5 <= Source.radius s <= 15 -> Source.intensity s <= 1 ->
  valid_source w h s'.
Proof.
  intros Hw Hh Hstep Hr Hi1.
  destruct (slot_step_post w h s s' Hw Hh Hstep) as [Hx [Hy Hlo]].
  destruct Hstep as [[Hkeep [Hi [Hrad _]]] | [_ [g' [Hg' ->]]]].
  - unfold valid_source. rewrite Hrad.
    repeat split; try tauto; try lra.
    rewrite Hi. unfold PetriDish.decay_factor in *.
    unfold PetriDish.respawn_threshold in *. lra.
  - apply fresh_source_valid. apply create_random_source_ok; assumption.
Qed.

Lemma update_valid d g :
  wf_rng g -> valid_dish d -> valid_dish (fst (PetriDish.update d g)).
Proof.
  intros Hg [Hw [Hh Hv]].
  destruct (update_step d g Hg) as [Ew [Eh [HF _]]].
  unfold valid_dish. rewrite Ew, Eh.
  split; [exact Hw |]. split; [exact Hh |].
  eapply Forall2_right; [exact HF |].
  intros a b Hin Hstep.
  rewrite Forall_forall in Hv. destruct (Hv a Hin) as [_ [_ [Hr [_ Hi]]]].
  eapply slot_step_valid; eassumption.
Qed.

Lemma updates_valid n : forall d g,
  wf_rng g -> valid_dish d ->
  valid_dish (fst (PetriDish.updates n d g)) /\
  same_tape g (snd (PetriDish.updates n d g)).
Proof.
  induction n as [| n IH]; intros d g Hg Hv; simpl.
  - split; [exact Hv | apply same_tape_refl].
  - unfold bind. pose proof (update_valid d g Hg Hv) as Hv'.
    destruct (update_step d g Hg) as [_ [_ [_ Ht]]].
    destruct (PetriDish.update d g) as [d' g']. simpl in *.
    destruct (IH d' g' (same_tape_wf _ _ Ht Hg) Hv') as [A B].
    split; [exact A | eapply same_tape_trans; eassumption].
Qed.

Lemma init_valid w h g :
  wf_rng g -> 0 <= w -> 0 <= h ->
  valid_dish (fst (PetriDish.__init__ w h g)).
Proof.
  intros Hg Hw Hh.
  destruct (init_fresh w h g Hg Hw Hh) as [Ew [Eh [HF _]]].
  unfold valid_dish. rewrite Ew, Eh.
  split; [exact Hw |]. split; [exact Hh |].
  eapply Forall_impl; [| exact HF]. apply fresh_source_valid.
Qed.

Lemma valid_dish_concentration d px py :
  valid_dish d ->
  exists c, PetriDish.get_concentration d px py = Some c /\ 0 <= c <= 1.
Proof.
  intros [_ [_ Hv]].
  assert (Hr : Forall (fun s => Source.radius s <> 0) (PetriDish.sources d)).
  { eapply Forall_impl; [| exact Hv].
    intros s [_ [_ [Hrad _]]]. lra. }
  unfold PetriDish.get_concentration.
  rewrite (accumulate_sum _ _ _ _ Hr).
  eexists. split; [reflexivity | apply py_clamp_unit].
Qed.

(** X7. After one [update] of a dish with non-negative bounds, whatever
    the sources were before, every source lies inside the bounds and has
    an intensity of at least the respawn threshold 0.05; the bounds of
    the dish are unchanged. *)
Theorem update_postconditions d g :
  wf_rng g -> 0 <= PetriDish.width d -> 0 <= PetriDish.height d ->
  let d' := fst (PetriDish.update d g) in
  PetriDish.width d' = PetriDish.width d /\
  PetriDish.height d' = PetriDish.height d /\
  Forall (fun s => 0 <= Source.x s <= PetriDish.width d /\
                   0 <= Source.y s <= PetriDish.height d /\
                   PetriDish.respawn_threshold <= Source.intensity s)
         (PetriDish.sources d').
Proof.
  intros Hg Hw Hh d'. subst d'.
  destruct (update_step d g Hg) as [Ew [Eh [HF _]]].
  split; [exact Ew |]. split; [exact Eh |].
  eapply Forall2_right; [exact HF |].
  intros a b _ Hstep. apply (slot_step_post _ _ a b Hw Hh Hstep).
Qed.

(** A dish whose only source lies outside the bounds. *)
Definition stray_dish : PetriDish.t :=
  dish_of [source_at 500.0 (-3.0) 10.0 1.0].

Lemma update_postconditions_witness :
  let d' := fst (PetriDish.update stray_dish (constant_rng 0.5)) in
  PetriDish.width d' = 100.0 /\
  PetriDish.height d' = 100.0 /\
  Forall (fun s => 0 <= Source.x s <= 100.0 /\
                   0 <= Source.y s <= 100.0 /\
                   PetriDish.respawn_threshold <= Source.intensity s)
         (PetriDish.sources d').
Proof.
  apply (update_postconditions stray_dish (constant_rng 0.5)).
  - apply constant_rng_wf. lra.
  - simpl. lra.
  - simpl. lra.
Defined.

(** X8. Validity is an invariant of [update]: if the bounds are
    non-negative and every source lies inside them with radius between 5
    and 15 and intensity between 0.05 and 1, the same holds after any
    number of updates. *)
Theorem update_keeps_dish_valid n d g :
  wf_rng g -> valid_dish d -> valid_dish (fst (PetriDish.updates n d g)).
Proof.
  intros Hg Hv. apply (updates_valid n d g Hg Hv).
Qed.

Lemma healthy_dish_valid : valid_dish healthy_dish.
Proof.
  unfold valid_dish, valid_source, PetriDish.respawn_threshold. simpl.
  split; [lra |]. split; [lra |].
  constructor; [| constructor]. simpl. repeat split; lra.
Qed.

Lemma update_keeps_dish_valid_witness :
  valid_dish (fst (PetriDish.updates 3 healthy_dish (constant_rng 0.5))).
Proof.
  apply (update_keeps_dish_valid 3 healthy_dish (constant_rng 0.5)).
  - apply constant_rng_wf. lra.
  - exact healthy_dish_valid.
Defined.

(** X9. A dish built by [PetriDish(w, h)] with non-negative bounds and
    then updated any number of times never makes [get_concentration]
    fail: at every point the call returns a value between 0 and 1. *)
Theorem concentration_never_fails_after_updates w h g n px py :
  wf_rng g -> 0 <= w -> 0 <= h ->
  let d0 := fst (PetriDish.__init__ w h g) in
  let g0 := snd (PetriDish.__init__ w h g) in
  exists c,
    PetriDish.get_concentration (fst (PetriDish.updates n d0 g0)) px py
      = Some c /\
    0 <= c <= 1.
Proof.
  intros Hg Hw Hh d0 g0. apply valid_dish_concentration.
  destruct (init_fresh w h g Hg Hw Hh) as [_ [_ [_ Ht]]].
  apply updates_valid.
  - eapply same_tape_wf; eassumption.
  - apply init_valid; assumption.
Qed.

Lemma concentration_never_fails_after_updates_witness :
  let d0 := fst (PetriDish.__init__ 100.0 100.0 (constant_rng 0.5)) in
  let g0 := snd (PetriDish.__init__ 100.0 100.0 (constant_rng 0.5)) in
  exists c,
    PetriDish.get_concentration (fst (PetriDish.updates 2 d0 g0)) 10 20
      = Some c /\
    0 <= c <= 1.
Proof.
  apply (concentration_never_fails_after_updates 100.0 100.0
           (constant_rng 0.5) 2 10 20).
  - apply constant_rng_wf. lra.
  - lra.
  - lra.
Defined.

Lemma clamp_drift (hi v d : R) :
  0 <= v <= hi -> Rabs (py_max 0 (py_min hi (v + d)) - v) <= Rabs d.
Proof.
  intros Hv. unfold py_max, py_min, Rmax, Rmin.
  destruct (Rle_dec hi (v + d)); destruct (Rle_dec 0 _);
    unfold Rabs; destruct (Rcase_abs _); destruct (Rcase_abs d); lra.
Qed.

(** X10. A source that lies inside the bounds and survives an [update]
    (its decayed intensity is not below the threshold) keeps its radius
    and moves by at most the Brownian step 0.5 along each axis. *)
Theorem surviving_source_drift d g i s :
  wf_rng g ->
  nth_error (PetriDish.sources d) i = Some s ->
  ~ Source.intensity s * PetriDish.decay_factor
      < PetriDish.respawn_threshold ->
  0 <= Source.x s <= PetriDish.width d ->
  0 <= Source.y s <= PetriDish.height d ->
  exists s',
    nth_error (PetriDish.sources (fst (PetriDish.update d g))) i = Some s' /\
    Source.radius s' = Source.radius s /\
    Rabs (Source.x s' - Source.x s) <= PetriDish.brownian_step /\
    Rabs (Source.y s' - Source.y s) <= PetriDish.brownian_step.
Proof.
  intros Hg Hi Hkeep Hx Hy.
  destruct (update_step d g Hg) as [_ [_ [HF _]]].
  destruct (Forall2_nth_error _ _ _ HF i s Hi) as [s' [Hs' Hstep]].
  exists s'. split; [exact Hs' |].
  destruct Hstep as [[_ [_ [Hrad [dx [dy [Hdx [Hdy [Ex Ey]]]]]]]] | [Hlt _]];
    [| contradiction].
  split; [exact Hrad |].
  pose proof (clamp_drift _ _ dx Hx) as Bx.
  pose proof (clamp_drift _ _ dy Hy) as By.
  rewrite Ex, Ey.
  assert (Rabs dx <= PetriDish.brownian_step)
    by (unfold Rabs; destruct (Rcase_abs dx); lra).
  assert (Rabs dy <= PetriDish.brownian_step)
    by (unfold Rabs; destruct (Rcase_abs dy); lra).
  split; lra.
Qed.

Lemma surviving_source_drift_witness :
  exists s',
    nth_error
      (PetriDish.sources (fst (PetriDish.update healthy_dish (constant_rng 0))))
      0 = Some s' /\
    Source.radius s' = 10.0 /\
    Rabs (Source.x s' - 50.0) <= PetriDish.brownian_step /\
    Rabs (Source.y s' - 50.0) <= PetriDish.brownian_step.
Proof.
  apply (surviving_source_drift healthy_dish (constant_rng 0) 0
           (source_at 50.0 50.0 10.0 1.0)).
  - apply constant_rng_wf. lra.
  - reflexivity.
  - simpl. unfold PetriDish.decay_factor, PetriDish.respawn_threshold. lra.
  - simpl. lra.
  - simpl. lra.
Defined.

(** * Further properties of the agent *)

(** ** Construction and sensing *)

(** The two points [sense] samples: [(x_l, y_l)] and [(x_r, y_r)]. *)
Definition sensor_left (p : Protozoa.t) : R * R :=
  let theta_l := Protozoa.angle p + sensor_angle PARAMS in
  (Protozoa.x p + sensor_dist PARAMS * cos theta_l,
   Protozoa.y p + sensor_dist PARAMS * sin theta_l).

Definition sensor_right (p : Protozoa.t) : R * R :=
  let theta_r := Protozoa.angle p - sensor_angle PARAMS in
  (Protozoa.x p + sensor_dist PARAMS * cos theta_r,
   Protozoa.y p + sensor_dist PARAMS * sin theta_r).

Lemma sense_run p dish :
  Protozoa.sense p dish =
  match PetriDish.get_concentration dish
          (fst (sensor_left p)) (snd (sensor_left p)) with
  | None => None
  | Some l =>
      match PetriDish.get_concentration dish
              (fst (sensor_right p)) (snd (sensor_right p)) with
      | None => None
      | Some r => Some (Protozoa.set_readings p l r)
      end
  end.
Proof. reflexivity. Qed.

Lemma radii_concentration d px py :
  Forall (fun s => Source.radius s <> 0) (PetriDish.sources d) ->
  exists c, PetriDish.get_concentration d px py = Some c /\ 0 <= c <= 1.
Proof.
  intros Hr. unfold PetriDish.get_concentration.
  rewrite (accumulate_sum _ _ _ _ Hr).
  eexists. split; [reflexivity | apply py_clamp_unit].
Qed.

Lemma sense_defined p dish :
  Forall (fun s => Source.radius s <> 0) (PetriDish.sources dish) ->
  exists l r,
    PetriDish.get_concentration dish
      (fst (sensor_left p)) (snd (sensor_left p)) = Some l /\
    PetriDish.get_concentration dish
      (fst (sensor_right p)) (snd (sensor_right p)) = Some r /\
    Protozoa.sense p dish = Some (Protozoa.set_readings p l r) /\
    0 <= l <= 1 /\ 0 <= r <= 1.
Proof.
  intros Hr.
  destruct (radii_concentration dish (fst (sensor_left p))
              (snd (sensor_left p)) Hr) as [l [El Hl]].
  destruct (radii_concentration dish (fst (sensor_right p))
              (snd (sensor_right p)) Hr) as [r [Er Hrr]].
  exists l, r. rewrite sense_run, El, Er. auto.
Qed.

(** X11. [Protozoa(px, py)] stands at the given point, at rest, with
    both readings 0 and full energy 1; its heading is drawn between 0
    and [2 * PI], and one draw is made. *)
Theorem protozoa_initial_state px py g :
  wf_rng g ->
  let p := fst (Protozoa.__init__ px py g) in
  Protozoa.x p = px /\ Protozoa.y p = py /\
  0 <= Protozoa.angle p < 2 * PI /\
  Protozoa.speed p = 0 /\ Protozoa.val_l p = 0 /\ Protozoa.val_r p = 0 /\
  Protozoa.energy p = 1 /\
  snd (Protozoa.__init__ px py g) = advance g.
Proof.
  intros Hg. unfold Protozoa.__init__, bind. rewrite uniform_run. simpl.
  pose proof PI_RGT_0. pose proof (Hg (cursor g)).
  repeat split; try reflexivity; try lra; nra.
Qed.

Lemma protozoa_initial_state_witness :
  let p := fst (Protozoa.__init__ 50.0 50.0 (constant_rng 0.5)) in
  Protozoa.x p = 50.0 /\ Protozoa.y p = 50.0 /\
  0 <= Protozoa.angle p < 2 * PI /\
  Protozoa.speed p = 0 /\ Protozoa.val_l p = 0 /\ Protozoa.val_r p = 0 /\
  Protozoa.energy p = 1 /\
  snd (Protozoa.__init__ 50.0 50.0 (constant_rng 0.5))
    = advance (constant_rng 0.5).
Proof.
  apply (protozoa_initial_state 50.0 50.0 (constant_rng 0.5)).
  apply constant_rng_wf. lra.
Defined.

(** X12. On a dish whose sources all have non-zero radius, [sense]
    succeeds: the new readings are the concentrations at the left and
    right sensor points, both between 0 and 1, and every other field of
    the agent is as before. *)
Theorem sense_reads_both_sensors p dish :
  Forall (fun s => Source.radius s <> 0) (PetriDish.sources dish) ->
  exists l r,
    PetriDish.get_concentration dish
      (fst (sensor_left p)) (snd (sensor_left p)) = Some l /\
    PetriDish.get_concentration dish
      (fst (sensor_right p)) (snd (sensor_right p)) = Some r /\
    Protozoa.sense p dish = Some (Protozoa.set_readings p l r) /\
    0 <= l <= 1 /\ 0 <= r <= 1.
Proof. apply sense_defined. Qed.

Lemma sense_reads_both_sensors_witness :
  exists l r,
    PetriDish.get_concentration healthy_dish
      (fst (sensor_left hungry)) (snd (sensor_left hungry)) = Some l /\
    PetriDish.get_concentration healthy_dish
      (fst (sensor_right hungry)) (snd (sensor_right hungry)) = Some r /\
    Protozoa.sense hungry healthy_dish
      = Some (Protozoa.set_readings hungry l r) /\
    0 <= l <= 1 /\ 0 <= r <= 1.
Proof.
  apply (sense_reads_both_sensors hungry healthy_dish).
  repeat constructor; simpl; lra.
Defined.

(** X13. [sense] fails exactly when [get_concentration] does: when some
    source of the dish has radius 0. *)
Theorem sense_fails_iff_zero_radius p dish :
  Protozoa.sense p dish = None <->
  Exists (fun s => Source.radius s = 0) (PetriDish.sources dish).
Proof.
  split.
  - intros Hn. destruct (radii_cases (PetriDish.sources dish)) as [Hr | Hz].
    + destruct (sense_defined p dish Hr) as [l [r [_ [_ [Hs _]]]]].
      congruence.
    + exact Hz.
  - intros Hz. rewrite sense_run.
    apply (concentration_none dish (fst (sensor_left p))
             (snd (sensor_left p))) in Hz.
    rewrite Hz. reflexivity.
Qed.

(** X14. Both sensor points lie at distance [sensor_dist] = 2 from the
    agent, and they are placed symmetrically about the heading: their
    midpoint lies ahead of the agent on the heading axis, at distance
    [2 * cos 0.5]. *)
Theorem sensor_geometry p :
  let (x_l, y_l) := sensor_left p in
  let (x_r, y_r) := sensor_right p in
  (x_l - Protozoa.x p) ^ 2 + (y_l - Protozoa.y p) ^ 2 = 4 /\
  (x_r - Protozoa.x p) ^ 2 + (y_r - Protozoa.y p) ^ 2 = 4 /\
  (x_l + x_r) / 2 = Protozoa.x p + 2 * cos 0.5 * cos (Protozoa.angle p) /\
  (y_l + y_r) / 2 = Protozoa.y p + 2 * cos 0.5 * sin (Protozoa.angle p).
Proof.
  unfold sensor_left, sensor_right. simpl.
  set (a := Protozoa.angle p).
  pose proof (sin2_cos2 (a + 0.5)) as Hl.
  pose proof (sin2_cos2 (a - 0.5)) as Hr.
  unfold Rsqr in Hl, Hr.
  rewrite cos_plus, cos_minus, sin_plus, sin_minus in *.
  repeat split; nra.
Qed.

(** ** The control law *)

(** The fields [update_state] writes, each in terms of the locals of the
    source. *)
Lemma update_state_fields p dish g :
  let p' := fst (Protozoa.update_state p dish g) in
  let speed1 := max_speed PARAMS * Rabs (Protozoa.error p) in
  let energy1 :=
    Protozoa.energy p - (0.0005 + 0.0025 * (speed1 / max_speed PARAMS))
    + 0.03 * Protozoa.mean_sense p in
  Protozoa.angle p' =
    py_mod (Protozoa.angle p + fst (Protozoa.d_theta p g)) (2 * PI) /\
  Protozoa.energy p' = py_max 0.0 (py_min 1.0 energy1) /\
  Protozoa.speed p' =
    (if Rle_dec (Protozoa.energy p') 0.01 then speed1 * 0.5 else speed1) /\
  Protozoa.x p' =
    py_max 0 (py_min (PetriDish.width dish)
                (Protozoa.x p + Protozoa.speed p' * cos (Protozoa.angle p'))) /\
  Protozoa.y p' =
    py_max 0 (py_min (PetriDish.height dish)
                (Protozoa.y p + Protozoa.speed p' * sin (Protozoa.angle p'))).
Proof.
  unfold Protozoa.update_state, Protozoa.d_theta, bind.
  rewrite uniform_run. simpl. repeat split; reflexivity.
Qed.

Lemma d_theta_run p g :
  fst (Protozoa.d_theta p g) =
  Protozoa.steering p
  + (-0.5 + (0.5 - -0.5) * floats g (cursor g)) * Rabs (Protozoa.error p).
Proof. reflexivity. Qed.

Lemma py_clamp_inside (hi v : R) :
  0 <= v <= hi -> py_max 0 (py_min hi v) = v.
Proof.
  intros Hv. unfold py_max, py_min, Rmax, Rmin.
  destruct (Rle_dec hi v); destruct (Rle_dec 0 _); lra.
Qed.

Lemma py_mod_small (a m : R) : 0 <= a < m -> py_mod a m = a.
Proof.
  intros [H0 Hm]. unfold py_mod.
  assert (Hq : 0 <= a / m < 1).
  { assert (Hmpos : 0 < m) by lra.
    pose proof (Rinv_0_lt_compat m Hmpos) as Hinv.
    unfold Rdiv. split; [nra |].
    apply (Rmult_lt_reg_r m); [exact Hmpos |].
    rewrite Rmult_assoc, Rinv_l by lra. lra. }
  rewrite <- (Int_part_spec (a / m) 0); [simpl; ring |].
  simpl. lra.
Qed.

Lemma cos_sin_shift (a : R) (k : Z) :
  cos (a - IZR k * (2 * PI)) = cos a /\ sin (a - IZR k * (2 * PI)) = sin a.
Proof.
  destruct (Z_le_gt_dec 0 k) as [Hk | Hk].
  - rewrite <- (Z2Nat.id k Hk), <- INR_IZR_INZ.
    set (n := Z.to_nat k). set (b := a - INR n * (2 * PI)).
    replace a with (b + 2 * INR n * PI) by (unfold b; ring).
    rewrite cos_period, sin_period. auto.
  - assert (Hk' : (0 <= - k)%Z) by lia.
    replace (IZR k) with (- IZR (- k)) by (rewrite opp_IZR; ring).
    rewrite <- (Z2Nat.id (- k) Hk'), <- INR_IZR_INZ.
    set (n := Z.to_nat (- k)).
    replace (a - - INR n * (2 * PI)) with (a + 2 * INR n * PI) by ring.
    rewrite cos_period, sin_period. auto.
Qed.

Lemma error_range p :
  0 <= Protozoa.val_l p <= 1 -> 0 <= Protozoa.val_r p <= 1 ->
  0 <= Protozoa.mean_sense p <= 1 /\
  Rabs (Protozoa.error p) <= 0.8 /\
  Rabs (Protozoa.gradient p) <= 1.
Proof.
  intros Hl Hr.
  unfold Protozoa.error, Protozoa.gradient, Protozoa.mean_sense. simpl.
  repeat split; try lra;
    unfold Rabs; destruct (Rcase_abs _); lra.
Qed.

Lemma update_state_speed p dish g :
  0 <= Protozoa.speed (fst (Protozoa.update_state p dish g))
    <= max_speed PARAMS * Rabs (Protozoa.error p).
Proof.
  destruct (update_state_fields p dish g) as [_ [_ [Hs _]]].
  rewrite Hs. pose proof (Rabs_pos (Protozoa.error p)).
  simpl. destruct (Rle_dec _ _); lra.
Qed.

(** X15. An agent whose mean reading is exactly the target 0.8 does not
    turn and does not move, whatever is drawn: the heading change and
    the speed are 0, and an agent inside the dish with a heading in
    [0, 2 * PI) keeps its position and heading; its energy rises by
    0.0235, up to 1. *)
Theorem at_target_agent_rests p dish g :
  Protozoa.val_l p + Protozoa.val_r p = 1.6 ->
  0 <= Protozoa.x p <= PetriDish.width dish ->
  0 <= Protozoa.y p <= PetriDish.height dish ->
  0 <= Protozoa.angle p < 2 * PI ->
  let p' := fst (Protozoa.update_state p dish g) in
  fst (Protozoa.d_theta p g) = 0 /\
  Protozoa.speed p' = 0 /\
  Protozoa.x p' = Protozoa.x p /\ Protozoa.y p' = Protozoa.y p /\
  Protozoa.angle p' = Protozoa.angle p /\
  Protozoa.energy p' = py_max 0.0 (py_min 1.0 (Protozoa.energy p + 0.0235)).
Proof.
  intros Hm Hx Hy Ha p'. subst p'.
  assert (He : Protozoa.error p = 0).
  { unfold Protozoa.error, Protozoa.mean_sense. simpl. lra. }
  assert (Hd : fst (Protozoa.d_theta p g) = 0).
  { rewrite d_theta_run. unfold Protozoa.steering.
    rewrite He, Rabs_R0. ring. }
  destruct (update_state_fields p dish g) as [Ea [Ee [Es [Ex Ey]]]].
  pose proof (update_state_speed p dish g) as Hs.
  rewrite He, Rabs_R0 in Hs.
  assert (Hs0 : Protozoa.speed (fst (Protozoa.update_state p dish g)) = 0)
    by lra.
  split; [exact Hd |]. split; [exact Hs0 |].
  rewrite Ex, Ey, Hs0, Ea, Hd, Ee, He, Rabs_R0.
  rewrite !Rmult_0_l, !Rplus_0_r.
  rewrite (py_clamp_inside _ _ Hx), (py_clamp_inside _ _ Hy),
          (py_mod_small _ _ Ha).
  repeat split; try reflexivity.
  do 2 f_equal. unfold Protozoa.mean_sense. simpl. lra.
Qed.

(** The agent of the boundary test moved into the dish: both readings
    0.8, at (50, 50), heading 0. *)
Definition sated : Protozoa.t :=
  {| Protozoa.x := 50.0; Protozoa.y := 50.0; Protozoa.angle := 0.0;
     Protozoa.speed := 0.0; Protozoa.val_l := 0.8; Protozoa.val_r := 0.8;
     Protozoa.energy := 1.0 |}.

Lemma at_target_agent_rests_witness :
  let p' := fst (Protozoa.update_state sated (dish_of []) (constant_rng 0)) in
  fst (Protozoa.d_theta sated (constant_rng 0)) = 0 /\
  Protozoa.speed p' = 0 /\
  Protozoa.x p' = 50.0 /\ Protozoa.y p' = 50.0 /\
  Protozoa.angle p' = 0.0 /\
  Protozoa.energy p' = py_max 0.0 (py_min 1.0 (1.0 + 0.0235)).
Proof.
  apply (at_target_agent_rests sated (dish_of []) (constant_rng 0)).
  - simpl. lra.
  - simpl. lra.
  - simpl. lra.
  - simpl. pose proof PI_RGT_0. lra.
Defined.

(** X16. With both readings between 0 and 1, the speed after
    [update_state] is between 0 and 1.2, and the heading change is at
    most 0.52 in absolute value. *)
Theorem speed_and_turn_bounded p dish g :
  wf_rng g ->
  0 <= Protozoa.val_l p <= 1 -> 0 <= Protozoa.val_r p <= 1 ->
  0 <= Protozoa.speed (fst (Protozoa.update_state p dish g)) <= 1.2 /\
  Rabs (fst (Protozoa.d_theta p g)) <= 0.52.
Proof.
  intros Hg Hl Hr.
  destruct (error_range p Hl Hr) as [_ [He Hgr]].
  pose proof (update_state_speed p dish g) as Hs.
  change (max_speed PARAMS) with 1.5 in Hs.
  split; [lra |].
  rewrite d_theta_run. unfold Protozoa.steering. simpl.
  pose proof (Hg (cursor g)) as Hu.
  revert He Hgr. generalize (Protozoa.gradient p).
  generalize (Protozoa.error p). intros e gr He Hgr.
  assert (Habs : Rabs (e * gr) <= 0.8).
  { rewrite Rabs_mult. pose proof (Rabs_pos e). pose proof (Rabs_pos gr).
    nra. }
  pose proof (Rabs_pos e) as He0.
  set (u := floats g (cursor g)) in *.
  assert (Hn : - 0.4 <= (-0.5 + (0.5 - -0.5) * u) * Rabs e <= 0.4) by nra.
  assert (Hst : - 0.12 <= - 0.15 * e * gr <= 0.12).
  { unfold Rabs in Habs. destruct (Rcase_abs (e * gr)); lra. }
  unfold Rabs at 1. destruct (Rcase_abs _); lra.
Qed.

Lemma speed_and_turn_bounded_witness :
  0 <= Protozoa.speed
         (fst (Protozoa.update_state hungry (dish_of []) (constant_rng 0)))
    <= 1.2 /\
  Rabs (fst (Protozoa.d_theta hungry (constant_rng 0))) <= 0.52.
Proof.
  apply (speed_and_turn_bounded hungry (dish_of []) (constant_rng 0)).
  - apply constant_rng_wf. lra.
  - simpl. lra.
  - simpl. lra.
Defined.

(** X17. An agent inside the dish moves, in one [update_state], by at
    most its new speed: the distance between the old and the new
    position is not above the speed the call stores. *)
Theorem displacement_at_most_speed p dish g :
  0 <= Protozoa.x p <= PetriDish.width dish ->
  0 <= Protozoa.y p <= PetriDish.height dish ->
  let p' := fst (Protozoa.update_state p dish g) in
  (Protozoa.x p' - Protozoa.x p) ^ 2 + (Protozoa.y p' - Protozoa.y p) ^ 2
    <= Protozoa.speed p' ^ 2.
Proof.
  intros Hx Hy p'. subst p'.
  destruct (update_state_fields p dish g) as [_ [_ [_ [Ex Ey]]]].
  set (p' := fst (Protozoa.update_state p dish g)) in *.
  set (s := Protozoa.speed p') in *. set (a := Protozoa.angle p') in *.
  pose proof (clamp_drift _ _ (s * cos a) Hx) as Bx.
  pose proof (clamp_drift _ _ (s * sin a) Hy) as By.
  rewrite <- Ex in Bx. rewrite <- Ey in By.
  apply Rsqr_le_abs_1 in Bx. apply Rsqr_le_abs_1 in By.
  pose proof (sin2_cos2 a) as Hsc. unfold Rsqr in *.
  assert (Hsq : s * cos a * (s * cos a) + s * sin a * (s * sin a) = s * s).
  { replace (s * cos a * (s * cos a) + s * sin a * (s * sin a))
      with (s * s * (sin a * sin a + cos a * cos a)) by ring.
    rewrite Hsc. ring. }
  clearbody p' s a. lra.
Qed.

Lemma displacement_at_most_speed_witness :
  let p' := fst (Protozoa.update_state hungry (dish_of []) (constant_rng 0)) in
  (Protozoa.x p' - 50.0) ^ 2 + (Protozoa.y p' - 50.0) ^ 2
    <= Protozoa.speed p' ^ 2.
Proof.
  apply (displacement_at_most_speed hungry (dish_of []) (constant_rng 0));
    simpl; lra.
Defined.

(** X18. The reduction modulo [2 * PI] keeps the direction: the cosine
    and the sine of the stored angle are those of the heading before
    plus the heading change. *)
Theorem wrapped_angle_same_direction p dish g :
  let p' := fst (Protozoa.update_state p dish g) in
  let theta := Protozoa.angle p + fst (Protozoa.d_theta p g) in
  cos (Protozoa.angle p') = cos theta /\
  sin (Protozoa.angle p') = sin theta.
Proof.
  intros p' theta. subst p'.
  destruct (update_state_fields p dish g) as [Ea _]. rewrite Ea.
  unfold py_mod. apply cos_sin_shift.
Qed.

(** X19. With readings between 0 and 1 and energy between 0 and 1, one
    [update_state] lowers the energy by at most 0.0025 and raises it by
    at most 0.03; the energy does not fall when the mean reading is at
    least 1/13, and it falls when the mean reading is below 1/13 and
    some energy is left. *)
Theorem energy_balance p dish g :
  0 <= Protozoa.val_l p <= 1 -> 0 <= Protozoa.val_r p <= 1 ->
  0 <= Protozoa.energy p <= 1 ->
  let e' := Protozoa.energy (fst (Protozoa.update_state p dish g)) in
  Protozoa.energy p - 0.0025 <= e' <= Protozoa.energy p + 0.03 /\
  (1 <= 13 * Protozoa.mean_sense p -> Protozoa.energy p <= e') /\
  (13 * Protozoa.mean_sense p < 1 -> 0 < Protozoa.energy p ->
   e' < Protozoa.energy p).
Proof.
  intros Hl Hr He e'. subst e'.
  destruct (update_state_fields p dish g) as [_ [Ee _]]. rewrite Ee.
  destruct (error_range p Hl Hr) as [Hm [Herr _]].
  assert (Hratio : max_speed PARAMS * Rabs (Protozoa.error p)
                   / max_speed PARAMS = Rabs (Protozoa.error p))
    by (simpl; field; lra).
  rewrite Hratio.
  unfold Protozoa.error in *. simpl in *.
  revert Hm Herr. generalize (Protozoa.mean_sense p). intros m Hm Herr.
  unfold py_max, py_min, Rmax, Rmin.
  unfold Rabs in *. destruct (Rcase_abs (m - 0.8));
    destruct (Rle_dec 1.0 _); destruct (Rle_dec 0.0 _);
    repeat split; intros; lra.
Qed.

Lemma energy_balance_witness :
  let e' :=
    Protozoa.energy
      (fst (Protozoa.update_state hungry (dish_of []) (constant_rng 0))) in
  1.0 - 0.0025 <= e' <= 1.0 + 0.03 /\
  (1 <= 13 * Protozoa.mean_sense hungry -> 1.0 <= e') /\
  (13 * Protozoa.mean_sense hungry < 1 -> 0 < 1.0 -> e' < 1.0).
Proof.
  apply (energy_balance hungry (dish_of []) (constant_rng 0)); simpl; lra.
Defined.

(** * The simulation loop *)

(** The two constructions of [Simulation.run]:
    [PetriDish(100.0, 100.0)] and then [Protozoa(50.0, 50.0)]. *)
Definition simulation_start : Rand Simulation.t :=
  d <- PetriDish.__init__ 100.0 100.0 ;;
  a <- Protozoa.__init__ 50.0 50.0 ;;
  ret {| Simulation.dish := d; Simulation.agent := a |}.

(** [n] turns of the loop of [Simulation.run], as far as the simulation
    state goes: [update] is called once per turn, and a failure ends the
    run. *)
Fixpoint simulation_ticks (n : nat) (s : Simulation.t) (g : Rng)
  : option (Simulation.t * Rng) :=
  match n with
  | O => Some (s, g)
  | S n' =>
      match Simulation.update s g with
      | None => None
      | Some (s', g') => simulation_ticks n' s' g'
      end
  end.

(** What holds of the simulation between two ticks. *)
Definition tick_invariant (s : Simulation.t) : Prop :=
  let d := Simulation.dish s in
  let a := Simulation.agent s in
  valid_dish d /\
  0 <= Protozoa.x a <= PetriDish.width d /\
  0 <= Protozoa.y a <= PetriDish.height d /\
  0 <= Protozoa.angle a < 2 * PI /\
  0 <= Protozoa.speed a <= 1.2 /\
  0 <= Protozoa.val_l a <= 1 /\ 0 <= Protozoa.val_r a <= 1 /\
  0 <= Protozoa.energy a <= 1.

Lemma update_state_readings p dish g :
  Protozoa.val_l (fst (Protozoa.update_state p dish g)) = Protozoa.val_l p /\
  Protozoa.val_r (fst (Protozoa.update_state p dish g)) = Protozoa.val_r p.
Proof. split; reflexivity. Qed.

Lemma valid_dish_radii d :
  valid_dish d ->
  Forall (fun s => Source.radius s <> 0) (PetriDish.sources d).
Proof.
  intros [_ [_ Hv]]. eapply Forall_impl; [| exact Hv].
  intros s [_ [_ [Hr _]]]. lra.
Qed.

Lemma update_state_invariant p dish g :
  valid_dish dish ->
  0 <= Protozoa.val_l p <= 1 -> 0 <= Protozoa.val_r p <= 1 ->
  tick_invariant
    {| Simulation.dish := dish;
       Simulation.agent := fst (Protozoa.update_state p dish g) |}.
Proof.
  intros Hv Hl Hr. unfold tick_invariant.
  cbn [Simulation.dish Simulation.agent].
  destruct (update_state_fields p dish g) as [Ea [Ee [_ [Ex Ey]]]].
  destruct (update_state_readings p dish g) as [El Er].
  pose proof (update_state_speed p dish g) as Hs.
  change (max_speed PARAMS) with 1.5 in Hs.
  destruct (error_range p Hl Hr) as [_ [He _]].
  destruct Hv as [Hw [Hh Hsrc]].
  split; [repeat split; assumption |].
  split; [rewrite Ex; apply py_clamp_bounds; exact Hw |].
  split; [rewrite Ey; apply py_clamp_bounds; exact Hh |].
  split; [rewrite Ea; apply py_mod_range; pose proof PI_RGT_0; lra |].
  split; [lra |].
  rewrite El, Er. split; [exact Hl |]. split; [exact Hr |].
  apply update_state_energy.
Qed.

Lemma tick_step s g :
  wf_rng g -> valid_dish (Simulation.dish s) ->
  exists s' g',
    Simulation.update s g = Some (s', g') /\
    same_tape g g' /\
    tick_invariant s' /\
    length (PetriDish.sources (Simulation.dish s')) =
    length (PetriDish.sources (Simulation.dish s)).
Proof.
  intros Hg Hv. unfold Simulation.update, Simulation.dish_update, bind.
  pose proof (update_valid (Simulation.dish s) g Hg Hv) as Hv1.
  pose proof (update_length (Simulation.dish s) g) as Hlen.
  destruct (update_step (Simulation.dish s) g Hg) as [_ [_ [_ Ht]]].
  destruct (PetriDish.update (Simulation.dish s) g) as [d1 g1].
  simpl in *. unfold Simulation.agent_sense. simpl.
  destruct (sense_defined (Simulation.agent s) d1 (valid_dish_radii d1 Hv1))
    as [l [r [_ [_ [Hs [Hl Hr]]]]]].
  rewrite Hs. unfold Simulation.agent_update_state, bind.
  cbn [Simulation.dish Simulation.agent].
  pose proof (update_state_invariant
                (Protozoa.set_readings (Simulation.agent s) l r) d1 g1
                Hv1 Hl Hr) as Hinv.
  pose proof (update_state_run
                (Protozoa.set_readings (Simulation.agent s) l r) d1 g1)
    as Hrun.
  destruct (Protozoa.update_state _ d1 g1) as [a' g2].
  cbn [fst snd] in *. unfold ret.
  eexists. eexists. split; [reflexivity |].
  split; [| split; [exact Hinv | exact Hlen]].
  eapply same_tape_trans; [exact Ht |]. subst g2. apply advance_tape.
Qed.

Lemma ticks_invariant n : forall s g,
  wf_rng g -> tick_invariant s ->
  exists s' g',
    simulation_ticks n s g = Some (s', g') /\
    tick_invariant s' /\
    length (PetriDish.sources (Simulation.dish s')) =
    length (PetriDish.sources (Simulation.dish s)).
Proof.
  induction n as [| n IH]; intros s g Hg Hinv; simpl.
  - eexists. eexists. split; [reflexivity | split; [exact Hinv | reflexivity]].
  - destruct Hinv as [Hv _].
    destruct (tick_step s g Hg Hv) as [s1 [g1 [E [Ht [Hinv1 Hlen1]]]]].
    rewrite E.
    destruct (IH s1 g1 (same_tape_wf _ _ Ht Hg) Hinv1)
      as [s' [g' [E' [Hinv' Hlen']]]].
    exists s', g'. split; [exact E' |]. split; [exact Hinv' | congruence].
Qed.

Lemma start_invariant g :
  wf_rng g ->
  tick_invariant (fst (simulation_start g)) /\
  (5 <= length (PetriDish.sources (Simulation.dish (fst (simulation_start g))))
     <= 10)%nat /\
  same_tape g (snd (simulation_start g)).
Proof.
  intros Hg. unfold simulation_start, bind.
  assert (H100 : 0 <= 100.0) by lra.
  pose proof (init_valid 100.0 100.0 g Hg H100 H100) as Hv.
  destruct (init_fresh 100.0 100.0 g Hg H100 H100) as [Ew [Eh [_ Ht]]].
  pose proof (init_length 100.0 100.0 g) as Hlen.
  destruct (PetriDish.__init__ 100.0 100.0 g) as [d g1]. cbn [fst snd] in *.
  assert (Hg1 : wf_rng g1) by (eapply same_tape_wf; eassumption).
  unfold Protozoa.__init__, bind. rewrite uniform_run. unfold ret.
  cbn [fst snd Simulation.dish].
  split; [| split; [exact Hlen |]].
  - unfold tick_invariant. simpl. rewrite Ew, Eh.
    pose proof PI_RGT_0. pose proof (Hg1 (cursor g1)).
    split; [exact Hv |]. repeat split; try lra; nra.
  - eapply same_tape_trans; [exact Ht | apply advance_tape].
Qed.

(** X20. One tick, [Simulation.update], on a valid dish never fails,
    whatever the agent was: afterwards the dish is valid with as many
    sources as before, the agent is inside the dish with a heading in
    [0, 2 * PI), a speed between 0 and 1.2, readings between 0 and 1 and
    an energy between 0 and 1. *)
Theorem tick_never_fails s g :
  wf_rng g -> valid_dish (Simulation.dish s) ->
  exists s' g',
    Simulation.update s g = Some (s', g') /\
    tick_invariant s' /\
    length (PetriDish.sources (Simulation.dish s')) =
    length (PetriDish.sources (Simulation.dish s)).
Proof.
  intros Hg Hv.
  destruct (tick_step s g Hg Hv) as [s' [g' [E [_ [Hinv Hlen]]]]].
  exists s', g'. auto.
Qed.

Lemma tick_never_fails_witness :
  exists s' g',
    Simulation.update
      {| Simulation.dish := healthy_dish; Simulation.agent := outside |}
      (constant_rng 0.5) = Some (s', g') /\
    tick_invariant s' /\
    length (PetriDish.sources (Simulation.dish s')) = 1%nat.
Proof.
  apply (tick_never_fails
           {| Simulation.dish := healthy_dish; Simulation.agent := outside |}
           (constant_rng 0.5)).
  - apply constant_rng_wf. lra.
  - exact healthy_dish_valid.
Defined.

(** X21. The run as [Simulation.run] sets it up, a 100 by 100 dish and
    an agent at (50, 50), goes through any number of ticks without a
    failure; after them the dish is valid and holds between 5 and 10
    sources, and the agent is inside the dish with its heading, speed,
    readings and energy in their ranges. *)
Theorem run_never_fails n g :
  wf_rng g ->
  let s0 := fst (simulation_start g) in
  let g0 := snd (simulation_start g) in
  exists s g',
    simulation_ticks n s0 g0 = Some (s, g') /\
    tick_invariant s /\
    (5 <= length (PetriDish.sources (Simulation.dish s)) <= 10)%nat.
Proof.
  intros Hg s0 g0.
  destruct (start_invariant g Hg) as [Hinv [Hlen Ht]].
  destruct (ticks_invariant n s0 g0 (same_tape_wf _ _ Ht Hg) Hinv)
    as [s [g' [E [Hinv' Hlen']]]].
  exists s, g'. split; [exact E |]. split; [exact Hinv' |].
  rewrite Hlen'. exact Hlen.
Qed.

Lemma run_never_fails_witness :
  let s0 := fst (simulation_start (constant_rng 0.5)) in
  let g0 := snd (simulation_start (constant_rng 0.5)) in
  exists s g',
    simulation_ticks 3 s0 g0 = Some (s, g') /\
    tick_invariant s /\
    (5 <= length (PetriDish.sources (Simulation.dish s)) <= 10)%nat.
Proof.
  apply (run_never_fails 3 (constant_rng 0.5)).
  apply constant_rng_wf. lra.
Defined.

(** * Rendering: what [Simulation] asks the screen to draw *)

(** [int(r)] on a float: truncation towards zero. *)
Definition py_int (r : R) : Z :=
  if Rle_dec 0 r then Int_part r else (- Int_part (- r))%Z.

(** [range(0, n, 1)] *)
Definition py_range (n : Z) : list Z :=
  map Z.of_nat (seq 0 (Z.to_nat n)).

(** [s[i]] on a sequence: a negative index counts from the end, and an
    index outside the sequence raises [IndexError]. *)
Definition py_getitem {A : Type} (s : list A) (i : Z) : option A :=
  let n := Z.of_nat (List.length s) in
  let j := if (i <? 0)%Z then (i + n)%Z else i in
  if ((j <? 0)%Z || (n <=? j)%Z)%bool then None
  else nth_error s (Z.to_nat j).

Module Render.

Import Ascii String.

(** One call [stdscr.addch(row, col, ch)]. *)
Definition addch : Type := (Z * Z * ascii)%type.

(** [self.chars] *)
Definition chars : list ascii := list_ascii_of_string " .:-=+*#%@".

(** [int(val * (len(self.chars) - 1))] *)
Definition char_idx (val : R) : Z :=
  py_int (val * IZR (Z.of_nat (List.length chars) - 1)).

(** The body of the inner loop of [_render_field]. *)
Definition field_cell (dish : PetriDish.t) (scale_x scale_y : R) (r c : Z)
  : option addch :=
  let world_y := IZR r * scale_y in
  let world_x := IZR c * scale_x in
  match PetriDish.get_concentration dish world_x world_y with
  | None => None
  | Some val =>
      match py_getitem chars (char_idx val) with
      | None => None
      | Some ch => Some (r, c, ch)
      end
  end.

Fixpoint field_row (dish : PetriDish.t) (scale_x scale_y : R) (r : Z)
  (cs : list Z) : option (list addch) :=
  match cs with
  | [] => Some []
  | c :: cs' =>
      match field_cell dish scale_x scale_y r c with
      | None => None
      | Some cell =>
          match field_row dish scale_x scale_y r cs' with
          | None => None
          | Some rest => Some (cell :: rest)
          end
      end
  end.

Fixpoint field_rows (dish : PetriDish.t) (scale_x scale_y : R)
  (rs : list Z) (cols : Z) : option (list addch) :=
  match rs with
  | [] => Some []
  | r :: rs' =>
      match field_row dish scale_x scale_y r (py_range cols) with
      | None => None
      | Some row =>
          match field_rows dish scale_x scale_y rs' cols with
          | None => None
          | Some rest => Some (row ++ rest)
          end
      end
  end.

(** [_render_field(rows, cols)] on a simulation whose screen and dish
    are set: the calls to [addch] it makes, in order; [None] when an
    exception other than [curses.error] is raised. *)
Definition _render_field (dish : PetriDish.t) (rows cols : Z)
  : option (list addch) :=
  if (rows =? 0)%Z then None
  else
    let scale_y := PetriDish.height dish / IZR rows in
    if (cols =? 0)%Z then None
    else
      let scale_x := PetriDish.width dish / IZR cols in
      field_rows dish scale_x scale_y (py_range (rows - 1)) cols.

(** [max(a, b)] and [min(a, b)] on two integers. *)
Definition py_max_int (a b : Z) : Z := Z.max a b.
Definition py_min_int (a b : Z) : Z := Z.min a b.

(** [_render_agent(rows, cols)] on a simulation whose screen, agent and
    dish are set: the calls to [addch] it makes when none of them raises
    [curses.error]; [None] when a division by zero is raised. *)
Definition _render_agent (dish : PetriDish.t) (agent : Protozoa.t)
  (rows cols : Z) : option (list addch) :=
  if Req_dec_T (PetriDish.height dish) 0 then None
  else
    let agent_r0 :=
      py_int (Protozoa.y agent / PetriDish.height dish * IZR rows) in
    if Req_dec_T (PetriDish.width dish) 0 then None
    else
      let agent_c0 :=
        py_int (Protozoa.x agent / PetriDish.width dish * IZR cols) in
      let agent_r := py_max_int 0 (py_min_int (rows - 1) agent_r0) in
      let agent_c := py_max_int 0 (py_min_int (cols - 1) agent_c0) in
      let theta := Protozoa.angle agent in
      let p_r := py_int (IZR agent_r + sin theta * 2) in
      let p_c := py_int (IZR agent_c + cos theta * 2) in
      Some ((agent_r, agent_c, "O"%char) ::
            (if ((0 <=? p_r)%Z && (p_r <? rows)%Z &&
                 (0 <=? p_c)%Z && (p_c <? cols)%Z)%bool
             then [(p_r, p_c, "."%char)] else [])).

(** The two characters [_render_agent] draws. *)
Definition agent_glyph : ascii := "O"%char.
Definition heading_glyph : ascii := "."%char.

End Render.

(** ** Truncation and indexing *)

Lemma Int_part_bounds (r : R) (lo hi : Z) :
  IZR lo <= r -> r <= IZR hi -> (lo <= Int_part r <= hi)%Z.
Proof.
  intros Hlo Hhi. destruct (base_Int_part r) as [H1 H2]. split.
  - assert (H : IZR lo < IZR (Int_part r) + 1) by lra.
    rewrite <- plus_IZR in H. apply lt_IZR in H. lia.
  - apply le_IZR. lra.
Qed.

Lemma Int_part_IZR (k : Z) : Int_part (IZR k) = k.
Proof. symmetry. apply Int_part_spec. lra. Qed.

Lemma py_int_IZR (k : Z) : py_int (IZR k) = k.
Proof.
  unfold py_int. destruct (Rle_dec 0 (IZR k)).
  - apply Int_part_IZR.
  - rewrite <- opp_IZR, Int_part_IZR. lia.
Qed.

Lemma Int_part_mono (a b : R) : a <= b -> (Int_part a <= Int_part b)%Z.
Proof.
  intros Hab. destruct (base_Int_part a) as [A1 _].
  destruct (base_Int_part b) as [_ B2].
  assert (H : IZR (Int_part a) < IZR (Int_part b) + 1) by lra.
  rewrite <- plus_IZR in H. apply lt_IZR in H. lia.
Qed.

Lemma py_int_mono (a b : R) : a <= b -> (py_int a <= py_int b)%Z.
Proof.
  intros Hab. unfold py_int.
  destruct (Rle_dec 0 a) as [Ha | Ha]; destruct (Rle_dec 0 b) as [Hb | Hb].
  - apply Int_part_mono. exact Hab.
  - lra.
  - assert (Hna : IZR 0 <= - a) by (simpl; lra).
    pose proof (Int_part_bounds (- a) 0 (Int_part (- a) + 1) Hna) as H1.
    assert (Hb0 : IZR 0 <= b) by (simpl; lra).
    pose proof (Int_part_bounds b 0 (Int_part b + 1) Hb0) as H2.
    destruct (base_Int_part (- a)). destruct (base_Int_part b).
    rewrite plus_IZR in H1, H2. simpl in H1, H2.
    assert (0 <= Int_part (- a))%Z by (apply H1; lra).
    assert (0 <= Int_part b)%Z by (apply H2; lra).
    lia.
  - assert (H : (Int_part (- b) <= Int_part (- a))%Z)
      by (apply Int_part_mono; lra).
    lia.
Qed.

Lemma py_getitem_in_range {A : Type} (s : list A) (i : Z) :
  (0 <= i < Z.of_nat (List.length s))%Z ->
  exists a, py_getitem s i = Some a /\ In a s.
Proof.
  intros Hi. unfold py_getitem.
  assert (E0 : (i <? 0)%Z = false) by (apply Z.ltb_ge; lia).
  assert (E1 : (Z.of_nat (List.length s) <=? i)%Z = false)
    by (apply Z.leb_gt; lia).
  cbv zeta. rewrite E0. rewrite E0, E1. cbn [orb].
  destruct (nth_error s (Z.to_nat i)) as [a |] eqn:En.
  - exists a. split; [reflexivity |]. eapply nth_error_In; exact En.
  - apply nth_error_None in En. lia.
Qed.

Lemma char_idx_range (val : R) :
  0 <= val <= 1 ->
  (0 <= Render.char_idx val <= 9)%Z /\
  IZR (Render.char_idx val) <= 9 * val < IZR (Render.char_idx val) + 1.
Proof.
  intros Hv. unfold Render.char_idx, py_int.
  change (IZR (Z.of_nat (List.length Render.chars) - 1)) with 9.
  destruct (Rle_dec 0 (val * 9)) as [_ | Hn]; [| lra].
  split.
  - apply Int_part_bounds; simpl; lra.
  - destruct (base_Int_part (val * 9)). lra.
Qed.

(** ** The field raster *)

Lemma py_range_In (n k : Z) : In k (py_range n) <-> (0 <= k < n)%Z.
Proof.
  unfold py_range. rewrite in_map_iff. split.
  - intros [i [<- Hi]]. apply in_seq in Hi. lia.
  - intros Hk. exists (Z.to_nat k). split; [lia |].
    apply in_seq. lia.
Qed.

Lemma py_range_length (n : Z) : length (py_range n) = Z.to_nat n.
Proof. unfold py_range. rewrite length_map, length_seq. reflexivity. Qed.

Lemma py_range_empty (n : Z) : (n <= 0)%Z -> py_range n = [].
Proof.
  intros Hn. unfold py_range.
  replace (Z.to_nat n) with O by lia. reflexivity.
Qed.

Lemma py_range_head (n : Z) :
  (0 < n)%Z -> exists rest, py_range n = 0%Z :: rest.
Proof.
  intros Hn. unfold py_range.
  destruct (Z.to_nat n) as [| m] eqn:E; [lia |].
  simpl. eexists. reflexivity.
Qed.


Lemma field_cell_ok dish sx sy r c :
  Forall (fun s => Source.radius s <> 0) (PetriDish.sources dish) ->
  exists ch,
    Render.field_cell dish sx sy r c = Some (r, c, ch) /\
    In ch Render.chars.
Proof.
  intros Hr. unfold Render.field_cell.
  destruct (radii_concentration dish (IZR c * sx) (IZR r * sy) Hr)
    as [val [Ev Hv]].
  rewrite Ev.
  destruct (char_idx_range val Hv) as [Hidx _].
  destruct (py_getitem_in_range Render.chars (Render.char_idx val))
    as [ch [Ech Hin]].
  { change (Z.of_nat (length Render.chars)) with 10%Z. lia. }
  rewrite Ech. exists ch. auto.
Qed.

Lemma field_row_ok dish sx sy r cs :
  Forall (fun s => Source.radius s <> 0) (PetriDish.sources dish) ->
  exists row,
    Render.field_row dish sx sy r cs = Some row /\
    length row = length cs /\
    Forall (fun cell : Render.addch =>
              let '(r', c, ch) := cell in
              r' = r /\ In c cs /\ In ch Render.chars) row.
Proof.
  intros Hr. induction cs as [| c cs IH]; simpl.
  - exists []. auto.
  - destruct (field_cell_ok dish sx sy r c Hr) as [ch [Ec Hch]].
    destruct IH as [row [Erow [Hlen HF]]].
    rewrite Ec, Erow. exists ((r, c, ch) :: row).
    split; [reflexivity |]. split; [simpl; congruence |].
    constructor.
    + auto.
    + eapply Forall_impl; [| exact HF].
      intros [[r' c'] ch'] [A [B C]]. auto.
Qed.

Lemma field_rows_ok dish sx sy rs cols :
  Forall (fun s => Source.radius s <> 0) (PetriDish.sources dish) ->
  exists cells,
    Render.field_rows dish sx sy rs cols = Some cells /\
    length cells = (length rs * Z.to_nat cols)%nat /\
    Forall (fun cell : Render.addch =>
              let '(r, c, ch) := cell in
              In r rs /\ (0 <= c < cols)%Z /\ In ch Render.chars) cells.
Proof.
  intros Hr. induction rs as [| r rs IH]; simpl.
  - exists []. auto.
  - destruct (field_row_ok dish sx sy r (py_range cols) Hr)
      as [row [Erow [Hlen HF]]].
    destruct IH as [cells [Ecells [Hlen' HF']]].
    rewrite Erow, Ecells. exists (row ++ cells).
    split; [reflexivity |]. split.
    + rewrite length_app, Hlen, Hlen', py_range_length. reflexivity.
    + apply Forall_app. split.
      * eapply Forall_impl; [| exact HF].
        intros [[r' c'] ch'] [A [B C]].
        apply py_range_In in B. auto.
      * eapply Forall_impl; [| exact HF'].
        intros [[r' c'] ch'] [A [B C]]. auto.
Qed.

Lemma field_rows_no_columns dish sx sy rs cols :
  (cols <= 0)%Z -> Render.field_rows dish sx sy rs cols = Some [].
Proof.
  intros Hc. induction rs as [| r rs IH]; simpl; [reflexivity |].
  rewrite (py_range_empty cols Hc). simpl. rewrite IH. reflexivity.
Qed.

(** X22. For a concentration between 0 and 1 the index
    [int(val * (len(chars) - 1))] is [floor (9 * val)], between 0 and 9,
    so [chars[char_idx]] is one of the ten glyphs and raises no
    [IndexError]; the last glyph is chosen exactly when the
    concentration is 1. *)
Theorem glyph_index_in_palette (val : R) :
  0 <= val <= 1 ->
  (0 <= Render.char_idx val <= 9)%Z /\
  IZR (Render.char_idx val) <= 9 * val < IZR (Render.char_idx val) + 1 /\
  (exists ch, py_getitem Render.chars (Render.char_idx val) = Some ch /\
              In ch Render.chars) /\
  (Render.char_idx val = 9%Z <-> val = 1).
Proof.
  intros Hv. destruct (char_idx_range val Hv) as [Hidx Hfl].
  split; [exact Hidx |]. split; [exact Hfl |]. split.
  - apply py_getitem_in_range.
    change (Z.of_nat (length Render.chars)) with 10%Z. lia.
  - split.
    + intros E. rewrite E in Hfl. lra.
    + intros ->. unfold Render.char_idx.
      change (IZR (Z.of_nat (length Render.chars) - 1)) with (IZR 9).
      rewrite Rmult_1_l. apply py_int_IZR.
Qed.

Lemma glyph_index_in_palette_witness :
  (0 <= Render.char_idx 0.5 <= 9)%Z.
Proof.
  apply (glyph_index_in_palette 0.5). lra.
Defined.



(** X24. [_render_field] fails in three cases only: [rows] is 0 or
    [cols] is 0 (the scale is a division by zero), or there is at least
    one cell to draw and some source has radius 0. *)
Theorem render_field_fails_iff dish rows cols :
  Render._render_field dish rows cols = None <->
  rows = 0%Z \/ cols = 0%Z \/
  ((1 < rows)%Z /\ (0 < cols)%Z /\
   Exists (fun s => Source.radius s = 0) (PetriDish.sources dish)).
Proof.
  unfold Render._render_field.
  destruct (rows =? 0)%Z eqn:E0.
  { apply Z.eqb_eq in E0. split; auto. }
  destruct (cols =? 0)%Z eqn:E1.
  { apply Z.eqb_eq in E1. split; auto. }
  apply Z.eqb_neq in E0. apply Z.eqb_neq in E1.
  set (sx := PetriDish.width dish / IZR cols).
  set (sy := PetriDish.height dish / IZR rows).
  split.
  - intros Hn. right. right.
    destruct (Z_lt_le_dec 1 rows) as [Hrows | Hrows].
    + destruct (Z_lt_le_dec 0 cols) as [Hcols | Hcols].
      * split; [exact Hrows |]. split; [exact Hcols |].
        destruct (radii_cases (PetriDish.sources dish)) as [Hr | Hz];
          [| exact Hz].
        destruct (field_rows_ok dish sx sy (py_range (rows - 1)) cols Hr)
          as [cells [Ec _]]. congruence.
      * rewrite (field_rows_no_columns dish sx sy _ cols Hcols) in Hn.
        discriminate.
    + rewrite (py_range_empty (rows - 1)) in Hn by lia. discriminate.
  - intros [H | [H | [Hrows [Hcols Hz]]]]; [contradiction | contradiction |].
    destruct (py_range_head (rows - 1)) as [rs Ers]; [lia |].
    destruct (py_range_head cols Hcols) as [cs Ecs].
    rewrite Ers. simpl. rewrite Ecs. simpl.
    unfold Render.field_cell.
    apply (concentration_none dish (IZR 0 * sx) (IZR 0 * sy)) in Hz.
    rewrite Hz. reflexivity.
Qed.

(** ** The agent marker *)

(** What [_render_agent] may ask for besides the agent's own cell: the
    heading mark, inside the window and at most two cells away from the
    agent's cell along each axis. *)
Definition heading_mark (rows cols agent_r agent_c : Z)
  (cell : Render.addch) : Prop :=
  let '(r, c, ch) := cell in
  (0 <= r < rows)%Z /\ (0 <= c < cols)%Z /\
  (agent_r - 2 <= r <= agent_r + 2)%Z /\
  (agent_c - 2 <= c <= agent_c + 2)%Z /\
  ch = Render.heading_glyph.

Lemma py_int_near (n : Z) (t : R) :
  -2 <= t <= 2 -> (n - 2 <= py_int (IZR n + t) <= n + 2)%Z.
Proof.
  intros Ht. split.
  - rewrite <- (py_int_IZR (n - 2)). apply py_int_mono.
    rewrite minus_IZR. lra.
  - rewrite <- (py_int_IZR (n + 2)). apply py_int_mono.
    rewrite plus_IZR. lra.
Qed.

(** X25. In a window with at least one row and one column, on a dish
    with non-zero width and height, [_render_agent] raises nothing: it
    asks for the letter O in a cell inside the window, wherever the
    agent stands, and for at most one more character, the heading mark,
    a dot inside the window at most two cells from the agent's cell
    along each axis. *)
Theorem render_agent_stays_in_window dish agent rows cols :
  (1 <= rows)%Z -> (1 <= cols)%Z ->
  PetriDish.width dish <> 0 -> PetriDish.height dish <> 0 ->
  exists agent_r agent_c rest,
    Render._render_agent dish agent rows cols
      = Some ((agent_r, agent_c, Render.agent_glyph) :: rest) /\
    (0 <= agent_r < rows)%Z /\ (0 <= agent_c < cols)%Z /\
    (length rest <= 1)%nat /\
    Forall (heading_mark rows cols agent_r agent_c) rest.
Proof.
  intros Hrows Hcols Hw Hh. unfold Render._render_agent.
  destruct (Req_dec_T (PetriDish.height dish) 0) as [E | _];
    [contradiction |].
  destruct (Req_dec_T (PetriDish.width dish) 0) as [E | _];
    [contradiction |].
  set (agent_r := Render.py_max_int 0 (Render.py_min_int (rows - 1) _)).
  set (agent_c := Render.py_max_int 0 (Render.py_min_int (cols - 1) _)).
  assert (Har : (0 <= agent_r < rows)%Z)
    by (unfold agent_r, Render.py_max_int, Render.py_min_int; lia).
  assert (Hac : (0 <= agent_c < cols)%Z)
    by (unfold agent_c, Render.py_max_int, Render.py_min_int; lia).
  set (theta := Protozoa.angle agent).
  assert (Hs : -2 <= sin theta * 2 <= 2)
    by (pose proof (SIN_bound theta); lra).
  assert (Hc : -2 <= cos theta * 2 <= 2)
    by (pose proof (COS_bound theta); lra).
  pose proof (py_int_near agent_r _ Hs) as Hpr.
  pose proof (py_int_near agent_c _ Hc) as Hpc.
  eexists. eexists. eexists. split; [reflexivity |].
  split; [exact Har |]. split; [exact Hac |].
  destruct (_ && _)%bool eqn:Eb.
  - split; [simpl; lia |]. constructor; [| constructor].
    apply andb_prop in Eb. destruct Eb as [Eb E4].
    apply andb_prop in Eb. destruct Eb as [Eb E3].
    apply andb_prop in Eb. destruct Eb as [E1 E2].
    apply Z.leb_le in E1, E3. apply Z.ltb_lt in E2, E4.
    unfold heading_mark. repeat split; try lia; reflexivity.
  - split; [simpl; lia | constructor].
Qed.

Lemma render_agent_stays_in_window_witness :
  exists agent_r agent_c rest,
    Render._render_agent healthy_dish outside 24 80
      = Some ((agent_r, agent_c, Render.agent_glyph) :: rest) /\
    (0 <= agent_r < 24)%Z /\ (0 <= agent_c < 80)%Z /\
    (length rest <= 1)%nat /\
    Forall (heading_mark 24 80 agent_r agent_c) rest.
Proof.
  apply (render_agent_stays_in_window healthy_dish outside 24 80).
  - lia.
  - lia.
  - simpl. lra.
  - simpl. lra.
Defined.
